(** * hespress-scrapper: the extraction and deduplication pipeline

    A shallow embedding of [src/scraper.py] (the later of the two revisions in
    the repository; [src/main.py] is the earlier one, keyed on the URL).

    - A Python [str] is a sequence of Unicode code points: [pystr := list N].
    - Python's [None] next to a [str] is [option pystr].
    - Python integers are unbounded: [Z].
    - The PostgreSQL table is the list of its rows, in insertion order.
    - Network, store and log effects are threaded through a small
      state-and-writer monad [M]: the state is the table, the written output
      is the sequence of externally visible events.

    What lies outside the repository is modelled as follows.
    - The site and [dateparser] are the fields of a [world]: within a run
      the same request gets the same answer.
    - A parsed page is the record of what the queries of the parsing
      function find in it ([find], [find_all], [get], [get_text]).
    - The store is reachable: the [except] branches of [create_table] and
      [article_exists], which a failed connection runs, are not modelled.
      The [except] branch of [insert_article] is: [execute] raises on a
      violated [UNIQUE] constraint and on a row that cannot be stored
      (psycopg2 cannot send it, or the server refuses to add it); which
      rows these are is a field of the [world].  The line [get_connection]
      logs is left out of the trace. *)

From Stdlib Require Import List ZArith NArith Bool Lia String Ascii Sorted.
Import ListNotations.

Set Implicit Arguments.

(* ================================================================== *)
(** * Python strings *)
(* ================================================================== *)

Module PyStr.

Definition codepoint := N.
Definition pystr := list codepoint.

(** Literals are written as in the source file, which is UTF-8 encoded:
    [utf8_from] decodes the bytes of a well-formed literal to code points. *)
Fixpoint utf8_from (pending : nat) (acc : N) (s : string) : pystr :=
  match s with
  | EmptyString => []
  | String a s' =>
      let b := N_of_ascii a in
      match pending with
      | O =>
          if (b <? 128)%N then b :: utf8_from 0 0 s'
          else if (b <? 224)%N then utf8_from 1 (b - 192) s'
          else if (b <? 240)%N then utf8_from 2 (b - 224) s'
          else utf8_from 3 (b - 240) s'
      | S O => (acc * 64 + (b - 128))%N :: utf8_from 0 0 s'
      | S k => utf8_from k (acc * 64 + (b - 128))%N s'
      end
  end.

Definition u (s : string) : pystr := utf8_from 0 0 s.

(** Truthiness of a Python string: only the empty string is falsy. *)
Definition truthy (s : pystr) : bool :=
  match s with [] => false | _ :: _ => true end.

(** Truthiness of a value that is [None] or a string. *)
Definition truthy_opt (o : option pystr) : bool :=
  match o with None => false | Some s => truthy s end.

Definition pystr_eqb (a b : pystr) : bool :=
  if list_eq_dec N.eq_dec a b then true else false.

(** [s.startswith(p)]. *)
Fixpoint starts_with (p s : pystr) : bool :=
  match p, s with
  | [], _ => true
  | _ :: _, [] => false
  | a :: p', b :: s' => (a =? b)%N && starts_with p' s'
  end.

(** [p in s]: [p] occurs in [s] as a contiguous substring. *)
Fixpoint contains (p s : pystr) : bool :=
  starts_with p s ||
  match s with
  | [] => false
  | _ :: s' => contains p s'
  end.

(** [str.replace(old, new)] for a non-empty [old]: the occurrences of [old]
    are found from left to right and do not overlap; the text put in place
    of an occurrence is not searched again.  [skip] counts the characters of
    the occurrence just replaced that are still to be dropped. *)
Fixpoint replace_from (old new : pystr) (skip : nat) (s : pystr) : pystr :=
  match s with
  | [] => []
  | c :: s' =>
      match skip with
      | S k => replace_from old new k s'
      | O =>
          if starts_with old s
          then new ++ replace_from old new (List.length old - 1) s'
          else c :: replace_from old new 0 s'
      end
  end.

(** [s.replace(old, new)].  With an empty [old] Python puts [new] before
    every character and at the end. *)
Definition replace (old new s : pystr) : pystr :=
  match old with
  | [] => new ++ flat_map (fun c => c :: new) s
  | _ :: _ => replace_from old new 0 s
  end.

(** [str.isspace] on one code point (the code points with bidirectional
    class WS, B or S, or category Zs), as [str.strip()] uses it. *)
Definition isspace (c : codepoint) : bool :=
  ((9 <=? c) && (c <=? 13) || (28 <=? c) && (c <=? 32)
   || (c =? 133) || (c =? 160) || (c =? 5760)
   || (8192 <=? c) && (c <=? 8202)
   || (c =? 8232) || (c =? 8233) || (c =? 8239) || (c =? 8287)
   || (c =? 12288))%N.

Fixpoint lstrip (s : pystr) : pystr :=
  match s with
  | [] => []
  | c :: s' => if isspace c then lstrip s' else s
  end.

Definition rstrip (s : pystr) : pystr := rev (lstrip (rev s)).

(** [s.strip()]. *)
Definition strip (s : pystr) : pystr := rstrip (lstrip s).

End PyStr.
Import PyStr.

(* ================================================================== *)
(** * Moroccan month names *)
(* ================================================================== *)

(** [MOROCCAN_MONTHS_MAP]: a dict literal with twelve distinct keys, so its
    [items()] are the pairs below, in this order. *)
Definition MOROCCAN_MONTHS_MAP : list (pystr * pystr) :=
  Eval vm_compute in
  [ (u "يناير", u "يناير");       (* January *)
    (u "فبراير", u "فبراير");     (* February *)
    (u "مارس", u "مارس");         (* March *)
    (u "أبريل", u "أبريل");       (* April *)
    (u "ماي", u "مايو");          (* May *)
    (u "يونيو", u "يونيو");       (* June *)
    (u "يوليوز", u "يوليو");      (* July *)
    (u "غشت", u "أغسطس");         (* August *)
    (u "شتنبر", u "سبتمبر");      (* September *)
    (u "أكتوبر", u "أكتوبر");     (* October *)
    (u "نونبر", u "نوفمبر");      (* November *)
    (u "دجنبر", u "ديسمبر")       (* December *)
  ].

(** The [for] loop of [normalize_moroccan_months] over the items of the map,
    rebinding [date_text] at each step. *)
Definition replace_months (table : list (pystr * pystr)) (date_text : pystr)
  : pystr :=
  fold_left (fun text kv => replace (fst kv) (snd kv) text) table date_text.

(** [normalize_moroccan_months(date_text)]: a falsy argument ([None] or the
    empty string) is returned as it is. *)
Definition normalize_moroccan_months (date_text : option pystr)
  : option pystr :=
  match date_text with
  | None => None
  | Some [] => Some []
  | Some s => Some (replace_months MOROCCAN_MONTHS_MAP s)
  end.

(* ================================================================== *)
(** * The post id of an article URL *)
(* ================================================================== *)

Module PostId.

(** The class [\d] of Python's [re] on a [str] pattern is the Unicode
    category Nd, which is a union of runs of ten consecutive digits; these
    are their zeros (Unicode 14.0). *)
Definition decimal_zeros : list codepoint :=
  [ 0x30; 0x660; 0x6f0; 0x7c0; 0x966; 0x9e6; 0xa66; 0xae6; 0xb66; 0xbe6;
    0xc66; 0xce6; 0xd66; 0xde6; 0xe50; 0xed0; 0xf20; 0x1040; 0x1090;
    0x17e0; 0x1810; 0x1946; 0x19d0; 0x1a80; 0x1a90; 0x1b50; 0x1bb0;
    0x1c40; 0x1c50; 0xa620; 0xa8d0; 0xa900; 0xa9d0; 0xa9f0; 0xaa50;
    0xabf0; 0xff10; 0x104a0; 0x10d30; 0x11066; 0x110f0; 0x11136; 0x111d0;
    0x112f0; 0x11450; 0x114d0; 0x11650; 0x116c0; 0x11730; 0x118e0;
    0x11950; 0x11c50; 0x11d50; 0x11da0; 0x16a60; 0x16ac0; 0x16b50;
    0x1d7ce; 0x1d7d8; 0x1d7e2; 0x1d7ec; 0x1d7f6; 0x1e140; 0x1e2f0;
    0x1e950; 0x1fbf0 ]%N.

Definition is_decimal (c : codepoint) : bool :=
  existsb (fun z => (z <=? c) && (c <? z + 10))%N decimal_zeros.

Definition hyphen : codepoint := 45%N.
Definition newline : codepoint := 10%N.
Definition dot_html : pystr := Eval vm_compute in u ".html".

(** [$] without [re.MULTILINE]: the end of the string, or the place just
    before a newline that is the last character of the string. *)
Definition at_dollar (s : pystr) : bool :=
  match s with
  | [] => true
  | [c] => (c =? newline)%N
  | _ => false
  end.

(** [\.html$] matched at the head of [s]. *)
Fixpoint literal_then_dollar (lit s : pystr) : bool :=
  match lit with
  | [] => at_dollar s
  | a :: lit' =>
      match s with
      | [] => false
      | b :: s' => (a =? b)%N && literal_then_dollar lit' s'
      end
  end.

(** [([\d]+)\.html$] matched at the head of [s]: the group is greedy, so the
    longest run of digits is tried first and shorter ones on backtracking.
    The result is the text of group 1. *)
Fixpoint digits_then_tail (s : pystr) : option pystr :=
  match s with
  | [] => None
  | c :: s' =>
      if is_decimal c then
        match digits_then_tail s' with
        | Some ds => Some (c :: ds)
        | None => if literal_then_dollar dot_html s' then Some [c] else None
        end
      else None
  end.

(** [-([\d]+)\.html$] matched at the head of [s]. *)
Definition match_here (s : pystr) : option pystr :=
  match s with
  | [] => None
  | c :: s' => if (c =? hyphen)%N then digits_then_tail s' else None
  end.

(** [re.search(r"-([\d]+)\.html$", s)]: the match at the leftmost position
    that has one; the result is its group 1. *)
Fixpoint re_search (s : pystr) : option pystr :=
  match match_here s with
  | Some g => Some g
  | None =>
      match s with
      | [] => None
      | _ :: s' => re_search s'
      end
  end.

(** [extract_post_id_from_url(article_url)]. *)
Definition extract_post_id_from_url (article_url : pystr) : pystr :=
  match re_search article_url with
  | Some g => g
  | None => []
  end.

End PostId.
Import PostId.

(* ================================================================== *)
(** * Documents, records and the outside world *)
(* ================================================================== *)

(** A [datetime] as [dateparser] returns it; only its identity matters. *)
Definition datetime := Z.

(** What [requests.get] gives: a response with its status code and its
    parsed body, or a raised [requests.RequestException]. *)
Inductive http_result (A : Type) : Type :=
| Response (status_code : Z) (body : A)
| RequestException.
Arguments RequestException {A}.

(** The [<a class="stretched-link">] of a card, with the attributes read. *)
Record anchor := mkAnchor {
  a_href : option pystr;
  a_title : option pystr
}.

(** One [<div class="card">] of a listing page, as the queries of
    [parse_listing_page] see it: the stripped text of its [span.cat], its
    first [a.stretched-link], the stripped text of its
    [small.text-muted.time]; each may be missing. *)
Record card := mkCard {
  card_cat : option pystr;
  card_link : option anchor;
  card_time : option pystr
}.

(** A parsed listing page: its cards in document order ([find_all]). *)
Definition listing_page := list card.

(** A parsed article page, as the queries of [parse_article_content] see it:
    - the text of [div.article-content] once its scripts and styles are
      removed ([get_text(separator="\n", strip=True)]);
    - [span.author], and inside it the stripped text of its first [<a>];
    - the stripped text of [span.date-post];
    - [div.post-thumbnail.featured-img], inside it its first [<img>], and
      the [src] attribute of that;
    - [section.box-tags] with the stripped texts of its [a.tag_post_tag]. *)
Record article_page := mkArticlePage {
  page_content : option pystr;
  page_author : option (option pystr);
  page_date_post : option pystr;
  page_featured_img : option (option (option pystr));
  page_tags : option (list pystr)
}.

(** An entry of the list [parse_listing_page] returns. *)
Record summary := mkSummary {
  s_postid : pystr;
  s_article_url : pystr;
  s_category : option pystr;
  s_title : pystr;
  s_date_text_ar : option pystr
}.

(** The dict [parse_article_content] returns when the page was fetched. *)
Record detail := mkDetail {
  d_author : pystr;
  d_content : pystr;
  d_featured_image : pystr;
  d_date_text_ar : pystr;
  d_tags : list pystr
}.

(** A row of [hespress_articles], with the columns the [INSERT] statement
    gives ([id] and [created_at] are assigned by the server). *)
Record article_row := mkRow {
  postid : pystr;
  article_url : pystr;
  category : option pystr;
  title : pystr;
  date_text_ar : option pystr;
  date : option datetime;
  author : pystr;
  content : pystr;
  featured_image : pystr;
  tags : list pystr
}.

Definition table := list article_row.

(** The outside world of one run: what the site answers for a listing page
    number and for an article URL, what [dateparser.parse(text,
    languages=['ar'])] returns, and which rows [cur.execute(insert_query,
    article_data)] cannot store, whatever the table holds:
    - [adapt_raises]: psycopg2 raises before the statement reaches the
      server (a string of the row holds a NUL character);
    - [store_refuses]: the server raises when it adds the row (the post id
      or the URL is too long for the index of its [UNIQUE] constraint). *)
Record world := mkWorld {
  listing_response : Z -> http_result listing_page;
  article_response : pystr -> http_result article_page;
  dateparser_parse : pystr -> option datetime;
  adapt_raises : article_row -> bool;
  store_refuses : article_row -> bool
}.

Inductive log_record : Type :=
| InfoTableEnsured
| InfoFetchingListing (page : Z)
| WarnSkippingPage (page status : Z)
| ErrorFetchingPage (page : Z)
| InfoFetchingArticle (url : pystr)
| WarnSkippingArticle (url : pystr) (status : Z)
| ErrorFetchingArticle (url : pystr)
| InfoInserted (id : pystr) (d : option datetime)
| ErrorInserting (id : pystr) (d : option datetime)
| InfoScrapingPage (page : Z)
| InfoNoArticles (page : Z)
| InfoAlreadyInDb (id url : pystr)
| InfoTotal (total : Z).

(** What a run does to the outside, in the order it does it.  [SqlInsert r]
    is the call [cur.execute(insert_query, r)], whether the statement
    reaches the server or not. *)
Inductive event : Type :=
| GetListing (page : Z)
| GetArticle (url : pystr)
| SqlCreateTable
| SqlSelect (id : pystr)
| SqlInsert (r : article_row)
| Logged (l : log_record)
| Sleep (tenths_of_second : Z)
| Printed (total : Z).

(* ================================================================== *)
(** * Effects *)
(* ================================================================== *)

(** A computation reads and updates the table and writes events. *)
Definition M (A : Type) : Type := table -> A * table * list event.

Definition ret {A} (a : A) : M A := fun db => (a, db, []).

Definition bind {A B} (m : M A) (f : A -> M B) : M B :=
  fun db =>
    let '(a, db1, t1) := m db in
    let '(b, db2, t2) := f a db1 in
    (b, db2, t1 ++ t2).

Definition emit (e : event) : M unit := fun db => (tt, db, [e]).
Definition log (l : log_record) : M unit := emit (Logged l).
Definition get_table : M table := fun db => (db, db, []).
Definition put_table (db' : table) : M unit := fun _ => (tt, db', []).

Declare Scope py_scope.
Delimit Scope py_scope with py.
Notation "x <- m ;; k" := (bind m (fun x => k))
  (at level 61, m at next level, right associativity) : py_scope.
Notation "m ;; k" := (bind m (fun _ => k))
  (at level 61, right associativity) : py_scope.
Local Open Scope py_scope.

(** [for x in l: body(x)]. *)
Fixpoint for_each {A} (l : list A) (body : A -> M unit) : M unit :=
  match l with
  | [] => ret tt
  | x :: l' => body x ;; for_each l' body
  end.

(** A [for] loop that rebinds one local variable. *)
Fixpoint for_fold {A S} (l : list A) (acc : S) (body : S -> A -> M S) : M S :=
  match l with
  | [] => ret acc
  | x :: l' => acc' <- body acc x ;; for_fold l' acc' body
  end.

Definition value_of {A} (r : A * table * list event) : A := fst (fst r).
Definition table_of {A} (r : A * table * list event) : table := snd (fst r).
Definition events_of {A} (r : A * table * list event) : list event := snd r.

(* ================================================================== *)
(** * The store *)
(* ================================================================== *)

Definition has_postid (db : table) (id : pystr) : bool :=
  existsb (fun r => pystr_eqb (postid r) id) db.

Definition has_url (db : table) (url : pystr) : bool :=
  existsb (fun r => pystr_eqb (article_url r) url) db.

(** [create_table()]: [CREATE TABLE IF NOT EXISTS]; the rows of an existing
    table are left alone. *)
Definition create_table : M unit :=
  emit SqlCreateTable ;; log InfoTableEnsured.

(** [article_exists(postid)]: no query is made for an empty post id. *)
Definition article_exists (id : pystr) : M bool :=
  if negb (truthy id) then ret false
  else
    emit (SqlSelect id) ;;
    db <- get_table ;;
    ret (has_postid db id).

(** [insert_article(article_data)].  [cur.execute] raises when psycopg2
    cannot send the row.  Otherwise the statement is [INSERT ... ON CONFLICT
    (postid) DO NOTHING]: a row whose [postid] is in the table is dropped
    without an error; a row whose [article_url], the other [UNIQUE] column,
    is in the table, or that the server refuses to add, makes the statement
    raise; any other row is added.  The [except Exception] branch logs the
    error and the row is not stored. *)
Definition insert_article (w : world) (article_data : article_row) : M unit :=
  emit (SqlInsert article_data) ;;
  if adapt_raises w article_data then
    log (ErrorInserting (postid article_data) (date article_data))
  else
    db <- get_table ;;
    if has_postid db (postid article_data) then
      log (InfoInserted (postid article_data) (date article_data))
    else if has_url db (article_url article_data)
            || store_refuses w article_data then
      log (ErrorInserting (postid article_data) (date article_data))
    else
      put_table (db ++ [article_data]) ;;
      log (InfoInserted (postid article_data) (date article_data)).

(* ================================================================== *)
(** * Parsing *)
(* ================================================================== *)

(** [tag.get(name, "")]. *)
Definition attr_or_empty (a : option pystr) : pystr :=
  match a with Some v => v | None => [] end.

(** The body of the [for div in articles_divs] loop of [parse_listing_page]:
    [results] after the card [div] has been looked at. *)
Definition listing_step (results : list summary) (div : card) : list summary :=
  let category := card_cat div in
  match card_link div with
  | None => results                                   (* continue *)
  | Some link_a =>
      let url := strip (attr_or_empty (a_href link_a)) in
      let article_title := strip (attr_or_empty (a_title link_a)) in
      let date_text := card_time div in
      if negb (truthy url) then results               (* continue *)
      else
        results ++
        [ {| s_postid := extract_post_id_from_url url;
             s_article_url := url;
             s_category := category;
             s_title := article_title;
             s_date_text_ar := date_text |} ]
  end.

(** The loop of [parse_listing_page] over the cards of a parsed page. *)
Definition listing_summaries (articles_divs : listing_page) : list summary :=
  fold_left listing_step articles_divs [].

(** The part of [parse_article_content] after the page was fetched. *)
Definition article_detail (soup : article_page) : detail :=
  let content_text :=
    match page_content soup with Some t => t | None => [] end in
  let author_name :=
    match page_author soup with Some (Some t) => t | _ => [] end in
  let date_text :=
    match page_date_post soup with Some t => t | None => [] end in
  let image :=
    match page_featured_img soup with
    | Some (Some src) => attr_or_empty src
    | _ => []
    end in
  let tag_list :=
    match page_tags soup with Some ts => ts | None => [] end in
  {| d_author := author_name;
     d_content := content_text;
     d_featured_image := image;
     d_date_text_ar := date_text;
     d_tags := tag_list |}.

(** [a or b] on values that are [None] or a string. *)
Definition py_or (a b : option pystr) : option pystr :=
  if truthy_opt a then a else b.

(** [range(start, stop, step)] as a list ([step] is 1 or -1 here; Python
    raises on 0, which is the empty list below). *)
Definition py_range (start stop step : Z) : list Z :=
  let n :=
    if (0 <? step)%Z then ((stop - start + step - 1) / step)%Z
    else if (step <? 0)%Z then ((start - stop - step - 1) / (- step))%Z
    else 0%Z in
  map (fun i => (start + Z.of_nat i * step)%Z) (seq 0 (Z.to_nat n)).

(** The value [scrape_hespress] returns: it has no [return] statement. *)
Inductive py_value : Type :=
| PyNone
| PyInt (n : Z).

Section Pipeline.

Variable w : world.

(** [parse_listing_page(page_number)]. *)
Definition parse_listing_page (page_number : Z) : M (list summary) :=
  log (InfoFetchingListing page_number) ;;
  emit (GetListing page_number) ;;
  match listing_response w page_number with
  | RequestException =>
      log (ErrorFetchingPage page_number) ;; ret []
  | Response status_code soup =>
      if negb (status_code =? 200)%Z then
        log (WarnSkippingPage page_number status_code) ;; ret []
      else ret (listing_summaries soup)
  end.

(** [parse_article_content(article_url)]; [None] is the empty dict. *)
Definition parse_article_content (url : pystr) : M (option detail) :=
  log (InfoFetchingArticle url) ;;
  emit (GetArticle url) ;;
  match article_response w url with
  | RequestException =>
      log (ErrorFetchingArticle url) ;; ret None
  | Response status_code soup =>
      if negb (status_code =? 200)%Z then
        log (WarnSkippingArticle url status_code) ;; ret None
      else ret (Some (article_detail soup))
  end.

(** [parse_arabic_date(date_text_ar)]. *)
Definition parse_arabic_date (date_text : option pystr) : option datetime :=
  if negb (truthy_opt date_text) then None
  else
    match normalize_moroccan_months date_text with
    | Some normalized_text => dateparser_parse w normalized_text
    | None => None
    end.

(** The dict [article_data] built from a summary and [detail_data]:
    [detail_data.get(key, default)] is the default for the empty dict. *)
Definition merge (s : summary) (detail_data : option detail) : article_row :=
  let date_text :=
    py_or (option_map d_date_text_ar detail_data) (s_date_text_ar s) in
  let date_parsed := parse_arabic_date date_text in
  {| postid := s_postid s;
     article_url := s_article_url s;
     category := s_category s;
     title := s_title s;
     date_text_ar := date_text;
     date := date_parsed;
     author := match detail_data with Some d => d_author d | None => [] end;
     content := match detail_data with Some d => d_content d | None => [] end;
     featured_image :=
       match detail_data with Some d => d_featured_image d | None => [] end;
     tags := match detail_data with Some d => d_tags d | None => [] end |}.

(** The body of the [for summary in articles_summaries] loop. *)
Definition process_summary (s : summary) : M unit :=
  found <- article_exists (s_postid s) ;;
  if found then
    log (InfoAlreadyInDb (s_postid s) (s_article_url s))     (* continue *)
  else
    detail_data <- parse_article_content (s_article_url s) ;;
    insert_article w (merge s detail_data) ;;
    emit (Sleep 5).

(** The body of the [for page_num in range(...)] loop;
    [total_articles_fetched] is the local variable it rebinds. *)
Definition scrape_page (total_articles_fetched : Z) (page_num : Z) : M Z :=
  log (InfoScrapingPage page_num) ;;
  articles_summaries <- parse_listing_page page_num ;;
  match articles_summaries with
  | [] => log (InfoNoArticles page_num) ;; ret total_articles_fetched
  | _ :: _ =>
      let total := (total_articles_fetched
                    + Z.of_nat (List.length articles_summaries))%Z in
      for_each articles_summaries process_summary ;;
      emit (Sleep 10) ;;
      ret total
  end.

(** The page numbers the loop of [scrape_hespress] runs over. *)
Definition pages (start_page end_page : Z) : list Z :=
  let step := if (start_page >? end_page)%Z then (-1)%Z else 1%Z in
  py_range start_page (end_page + step) step.

(** [scrape_hespress(start_page, end_page)]. *)
Definition scrape_hespress (start_page end_page : Z) : M py_value :=
  create_table ;;
  total <- for_fold (pages start_page end_page) 0%Z scrape_page ;;
  log (InfoTotal total) ;;
  emit (Printed total) ;;
  ret PyNone.

End Pipeline.

(* ================================================================== *)
(** * The vocabulary of the properties *)
(* ================================================================== *)

(* ------------------------------------------------------------------ *)
(** ** Strings and month names *)

(** [c] is not one of the characters of [old]. *)
Definition foreign (old : pystr) (c : codepoint) : bool :=
  negb (existsb (N.eqb c) old).

(** No character of [s] occurs in a key of the month table. *)
Definition outside_months (s : pystr) : bool :=
  forallb
    (fun c => forallb (fun kv => foreign (fst kv) c) MOROCCAN_MONTHS_MAP) s.

Definition may_variant : pystr := Eval vm_compute in u "ماي".
Definition may_canonical : pystr := Eval vm_compute in u "مايو".
Definition july_variant : pystr := Eval vm_compute in u "يوليوز".
Definition july_canonical : pystr := Eval vm_compute in u "يوليو".

Definition january : pystr := Eval vm_compute in u "يناير".
Definition june : pystr := Eval vm_compute in u "يونيو".
Definition august_variant : pystr := Eval vm_compute in u "غشت".
Definition august_canonical : pystr := Eval vm_compute in u "أغسطس".
Definition september_variant : pystr := Eval vm_compute in u "شتنبر".
Definition september_canonical : pystr := Eval vm_compute in u "سبتمبر".
Definition november_variant : pystr := Eval vm_compute in u "نونبر".
Definition november_canonical : pystr := Eval vm_compute in u "نوفمبر".
Definition december_variant : pystr := Eval vm_compute in u "دجنبر".
Definition december_canonical : pystr := Eval vm_compute in u "ديسمبر".

(** The entries of [MOROCCAN_MONTHS_MAP] after July that change
    something. *)
Definition after_july : list (pystr * pystr) :=
  [ (august_variant, august_canonical);
    (september_variant, september_canonical);
    (november_variant, november_canonical);
    (december_variant, december_canonical) ].

(* ------------------------------------------------------------------ *)
(** ** Occurrences that overlap *)

(** Every occurrence of [k'] in [a ++ k ++ b] lies in [a] or in [b]: none
    shares a character with the [k] that follows [a]. *)
Definition clear_of (k' a k b : pystr) : bool :=
  forallb (fun q =>
             negb (starts_with k' (skipn q (a ++ k ++ b)))
             || (q + List.length k' <=? List.length a)
             || (List.length a + List.length k <=? q))
          (seq 0 (List.length (a ++ k ++ b))).

(** The occurrence of the key [k] that follows [a] in [a ++ k ++ b]
    overlaps no occurrence of another key of the month table. *)
Definition overlap_free (a k b : pystr) : bool :=
  forallb (fun kv => pystr_eqb (fst kv) k || clear_of (fst kv) a k b)
          MOROCCAN_MONTHS_MAP.

(** The ways an occurrence of [old] that starts before [t] can run into
    [t]: the numbers of characters of [old] that then stand before [t]. *)
Definition left_crossings (old t : pystr) : list nat :=
  filter (fun i => starts_with (skipn i old) t || starts_with t (skipn i old))
         (seq 1 (List.length old - 1)).

(** No occurrence of [old] can start inside [t], whatever follows [t]. *)
Definition inner_free (old t : pystr) : bool :=
  forallb (fun j => negb (starts_with old (skipn j t)
                          || starts_with (skipn j t) old))
          (seq 0 (List.length t)).

(** No occurrence of [old] can share a character with an occurrence of
    [t], whatever stands around [t]. *)
Definition crossfree (old t : pystr) : bool :=
  match left_crossings old t with
  | [] => inner_free old t
  | _ :: _ => false
  end.

(** The entries of a table that change something: those whose value is not
    their key. *)
Definition real_replacements (table : list (pystr * pystr))
  : list (pystr * pystr) :=
  filter (fun kv => negb (pystr_eqb (fst kv) (snd kv))) table.

(** Every entry of [steps] has a key that is not empty and cannot overlap
    [t]. *)
Definition steps_crossfree (steps : list (pystr * pystr)) (t : pystr) : bool :=
  forallb (fun kv => truthy (fst kv) && crossfree (fst kv) t) steps.

(** [s] holds [t]. *)
Definition holds (t s : pystr) : Prop := exists x y, s = x ++ t ++ y.

(** C5 as the specification words it: whatever string holds a key of the
    table, its normalization holds the value of that key. *)
Definition normalize_yields_canonical : Prop :=
  forall variant canonical s,
    In (variant, canonical) MOROCCAN_MONTHS_MAP ->
    contains variant s = true ->
    exists t, normalize_moroccan_months (Some s) = Some t /\
              contains canonical t = true.

(* ------------------------------------------------------------------ *)
(** ** The post id pattern *)

(** The text after group 1 in a match: [.html], then the end of the string
    or one last newline. *)
Definition dollar_rest (nl : pystr) : Prop := nl = [] \/ nl = [newline].

(** [url] ends with [-<ds>.html], [ds] being one or more decimal digits. *)
Definition trailing_id (url ds : pystr) : Prop :=
  ds <> [] /\ forallb is_decimal ds = true /\
  exists pre, url = pre ++ [hyphen] ++ ds ++ dot_html.

(** The same, where one newline may follow [.html] (what [$] accepts). *)
Definition trailing_id_nl (url ds : pystr) : Prop :=
  ds <> [] /\ forallb is_decimal ds = true /\
  exists pre nl,
    dollar_rest nl /\ url = pre ++ [hyphen] ++ ds ++ dot_html ++ nl.

(* ------------------------------------------------------------------ *)
(** ** Listing pages *)

(** The URL of a card: the [href] of its link, stripped, when the card has
    a link and the stripped [href] is not empty. *)
Definition card_url (c : card) : option pystr :=
  match card_link c with
  | None => None
  | Some a =>
      let url := strip (attr_or_empty (a_href a)) in
      if truthy url then Some url else None
  end.

(** The summary the specification gives for one card, if any. *)
Definition card_summary (c : card) : option summary :=
  match card_link c, card_url c with
  | Some a, Some url =>
      Some {| s_postid := extract_post_id_from_url url;
              s_article_url := url;
              s_category := card_cat c;
              s_title := strip (attr_or_empty (a_title a));
              s_date_text_ar := card_time c |}
  | _, _ => None
  end.

(** [extract(document)] in the specification's words: one summary per card
    that has one, in document order. *)
Definition extract_summaries (doc : listing_page) : list summary :=
  flat_map (fun c => match card_summary c with Some s => [s] | None => [] end)
           doc.

Definition is_some {A} (o : option A) : bool :=
  match o with Some _ => true | None => false end.

(* ------------------------------------------------------------------ *)
(** ** Traces *)

(** The projections of a trace the claims speak of: the listing pages
    requested, the article pages requested, the rows handed to [INSERT],
    and the totals printed. *)
Definition listing_requests (evs : list event) : list Z :=
  flat_map (fun e => match e with GetListing p => [p] | _ => [] end) evs.

Definition article_requests (evs : list event) : list pystr :=
  flat_map (fun e => match e with GetArticle x => [x] | _ => [] end) evs.

Definition insert_attempts (evs : list event) : list article_row :=
  flat_map (fun e => match e with SqlInsert r => [r] | _ => [] end) evs.

Definition printed (evs : list event) : list Z :=
  flat_map (fun e => match e with Printed n => [n] | _ => [] end) evs.

(** The articles a trace says are being skipped for their status. *)
Definition skipping_warnings (evs : list event) : list (pystr * Z) :=
  flat_map (fun e => match e with
                     | Logged (WarnSkippingArticle x st) => [(x, st)]
                     | _ => []
                     end) evs.

(* ------------------------------------------------------------------ *)
(** ** The store and the pipeline *)

(** The store cannot hold the row, whatever the table holds. *)
Definition refused (w : world) (r : article_row) : bool :=
  adapt_raises w r || store_refuses w r.

(** What [insert_article] does to the table. *)
Definition insert_row (w : world) (db : table) (r : article_row) : table :=
  if adapt_raises w r then db
  else if has_postid db (postid r) then db
  else if has_url db (article_url r) || store_refuses w r then db
  else db ++ [r].

(** The summaries of listing page [p]: none when the request fails or the
    status is not 200. *)
Definition page_summaries (w : world) (p : Z) : list summary :=
  match listing_response w p with
  | Response status_code soup =>
      if (status_code =? 200)%Z then listing_summaries soup else []
  | RequestException => []
  end.

(** The detail of the article at [url]: none when the request fails or the
    status is not 200. *)
Definition fetched_detail (w : world) (url : pystr) : option detail :=
  match article_response w url with
  | Response status_code soup =>
      if (status_code =? 200)%Z then Some (article_detail soup) else None
  | RequestException => None
  end.

(** The summaries seen on a walk from [start_page] to [end_page]. *)
Definition summaries_seen (w : world) (start_page end_page : Z)
  : list summary :=
  flat_map (page_summaries w) (pages start_page end_page).

(** The dedup gate: the summary has a post id and the table holds it. *)
Definition gated (db : table) (s : summary) : bool :=
  truthy (s_postid s) && has_postid db (s_postid s).

(** The row [scrape_hespress] makes of a summary. *)
Definition row_of (w : world) (s : summary) : article_row :=
  merge w s (fetched_detail w (s_article_url s)).

(** The table holds the post id of the summary, or its URL, or the store
    cannot hold the row made of it: processing the summary leaves the
    table as it is. *)
Definition settled (w : world) (db : table) (s : summary) : Prop :=
  has_postid db (s_postid s) = true \/
  has_url db (s_article_url s) = true \/
  refused w (row_of w s) = true.

(** The rows of the table whose post id is the empty string. *)
Definition empty_postid_rows (db : table) : list article_row :=
  filter (fun r => pystr_eqb (postid r) []) db.

(** The number of summaries on the pages [ps]. *)
Definition count_summaries (w : world) (ps : list Z) : Z :=
  fold_right (fun p n => (Z.of_nat (List.length (page_summaries w p)) + n)%Z)
             0%Z ps.

(** The number of summaries seen on the walk. *)
Definition total_summaries_seen (w : world) (start_page end_page : Z) : Z :=
  Z.of_nat (List.length (summaries_seen w start_page end_page)).

(** C2 as the specification words it: the run returns the total. *)
Definition run_returns_total : Prop :=
  forall w start_page end_page db,
    value_of (scrape_hespress w start_page end_page db)
    = PyInt (total_summaries_seen w start_page end_page).

(* ------------------------------------------------------------------ *)
(** ** The walk over the listing pages *)

(** [n] pages from [from] on, [step] apart. *)
Fixpoint walk (from step : Z) (n : nat) : list Z :=
  match n with
  | O => []
  | S k => from :: walk (from + step) step k
  end.

(** The closed interval between [start_page] and [end_page] as the
    specification walks it: downwards from [start_page] when it is the
    larger one, upwards from it otherwise, both ends included. *)
Definition closed_interval_walk (start_page end_page : Z) : list Z :=
  if (start_page >? end_page)%Z
  then walk start_page (-1) (Z.to_nat (start_page - end_page + 1))
  else walk start_page 1 (Z.to_nat (end_page - start_page + 1)).

(* ================================================================== *)
(** * Example sites *)
(* ================================================================== *)

Definition url_a : pystr :=
  Eval vm_compute in u "https://www.hespress.com/a-1.html".
Definition url_b : pystr :=
  Eval vm_compute in u "https://www.hespress.com/b-2.html".
Definition url_c : pystr :=
  Eval vm_compute in u "https://www.hespress.com/c.html".

Definition card_of (url title time : pystr) : card :=
  {| card_cat := None;
     card_link := Some {| a_href := Some url; a_title := Some title |};
     card_time := Some time |}.

Definition card_a : card := card_of url_a (u "A") (u "12 ماي 2024").
Definition card_b : card := card_of url_b (u "B") (u "13 ماي 2024").
Definition card_c : card := card_of url_c (u "C") (u "14 ماي 2024").

(** A card without a link. *)
Definition card_bare : card :=
  {| card_cat := Some (u "سياسة"); card_link := None; card_time := None |}.

(** The summary of the card [card_b]. *)
Definition summary_b : summary :=
  {| s_postid := u "2";
     s_article_url := url_b;
     s_category := None;
     s_title := u "B";
     s_date_text_ar := Some (u "13 ماي 2024") |}.

Definition page_of (body date_post : pystr) : article_page :=
  {| page_content := Some body;
     page_author := Some (Some (u "هسبريس"));
     page_date_post := Some date_post;
     page_featured_img := None;
     page_tags := Some [] |}.

(** A site with one listing page, number 1, that lists the articles [a],
    [b] and [c]; the page of [a] answers 404. *)
Definition site_a_missing : world :=
  {| listing_response := fun p =>
       if (p =? 1)%Z then Response 200 [card_a; card_bare; card_b; card_c]
       else Response 404 [];
     article_response := fun url =>
       if pystr_eqb url url_a then Response 404 (page_of [] [])
       else Response 200 (page_of (u "text") (u "15 يوليوز 2024"));
     dateparser_parse := fun _ => None;
     adapt_raises := fun _ => false;
     store_refuses := fun _ => false |}.

(** The same site once the page of [a] answers 200. *)
Definition site_a_back : world :=
  {| listing_response := listing_response site_a_missing;
     article_response := fun url =>
       Response 200 (page_of (u "text") (u "15 يوليوز 2024"));
     dateparser_parse := fun _ => None;
     adapt_raises := fun _ => false;
     store_refuses := fun _ => false |}.

(** The row a run on [site_a_missing] stores for the article [a]. *)
Definition row_a_empty : article_row :=
  {| postid := u "1";
     article_url := url_a;
     category := None;
     title := u "A";
     date_text_ar := Some (u "12 ماي 2024");
     date := None;
     author := [];
     content := [];
     featured_image := [];
     tags := [] |}.

Definition row_b : article_row :=
  {| postid := u "2";
     article_url := url_b;
     category := None;
     title := u "B";
     date_text_ar := Some (u "15 يوليوز 2024");
     date := None;
     author := u "هسبريس";
     content := u "text";
     featured_image := [];
     tags := [] |}.

Definition row_c : article_row :=
  {| postid := [];
     article_url := url_c;
     category := None;
     title := u "C";
     date_text_ar := Some (u "15 يوليوز 2024");
     date := None;
     author := u "هسبريس";
     content := u "text";
     featured_image := [];
     tags := [] |}.

(* ================================================================== *)
(** * Further vocabulary *)
(* ================================================================== *)

(** The last character of a string (0 for the empty string). *)
Definition last_char (s : pystr) : codepoint := last s 0%N.

(** The summary of the card [card_a]. *)
Definition summary_a : summary :=
  {| s_postid := u "1";
     s_article_url := url_a;
     s_category := None;
     s_title := u "A";
     s_date_text_ar := Some (u "12 ماي 2024") |}.

(** The standard name of May once normalized again. *)
Definition may_twice : pystr := Eval vm_compute in u "مايوو".

(** The requests to the site and the pauses of a trace, in order. *)
Definition requests_and_sleeps (evs : list event) : list event :=
  filter (fun e => match e with
                   | GetListing _ | GetArticle _ | Sleep _ => true
                   | _ => false
                   end) evs.

(** A sequence of requests and pauses in which every request for an
    article page is followed at once by a pause of half a second. *)
Inductive paced : list event -> Prop :=
| paced_nil : paced []
| paced_listing p l : paced l -> paced (GetListing p :: l)
| paced_sleep n l : paced l -> paced (Sleep n :: l)
| paced_article x l : paced l -> paced (GetArticle x :: Sleep 5 :: l).

(** The listing page [p] gives nothing: the request fails or the status is
    not 200. *)
Definition page_failed (w : world) (p : Z) : Prop :=
  match listing_response w p with
  | RequestException => True
  | Response status_code _ => status_code <> 200%Z
  end.

(** The site of [site_a_missing] with a store that cannot hold the row of
    the article [b], and one to which psycopg2 cannot send it. *)
Definition site_b_refused : world :=
  {| listing_response := listing_response site_a_missing;
     article_response := article_response site_a_missing;
     dateparser_parse := fun _ => None;
     adapt_raises := fun _ => false;
     store_refuses := fun r => pystr_eqb (postid r) (u "2") |}.

Definition site_b_unsendable : world :=
  {| listing_response := listing_response site_a_missing;
     article_response := article_response site_a_missing;
     dateparser_parse := fun _ => None;
     adapt_raises := fun r => pystr_eqb (postid r) (u "2");
     store_refuses := fun _ => false |}.

(** The errors of [insert_article] that a trace logs, by post id. *)
Definition insert_errors (evs : list event) : list pystr :=
  flat_map (fun e => match e with
                     | Logged (ErrorInserting id _) => [id]
                     | _ => []
                     end) evs.

(** A site that is down: every request raises. *)
Definition site_down : world :=
  {| listing_response := fun _ => RequestException;
     article_response := fun _ => RequestException;
     dateparser_parse := fun _ => None;
     adapt_raises := fun _ => false;
     store_refuses := fun _ => false |}.

(* ================================================================== *)
(** * The earlier revision: [src/main.py] *)
(* ================================================================== *)

(** [src/main.py] differs from [src/scraper.py] in four places: the post id
    is read from the article page, not from the URL; the summaries have no
    post id; [article_url] is the only [UNIQUE] column and the conflict
    target of the [INSERT]; and there is no existence check before the
    article page is requested.  The rest is the same code, and the
    definitions above are used for it. *)
Module Earlier.

(** The article page and the detail of the later revision, which this one
    extends. *)
Definition shared_page : Type := article_page.
Definition shared_detail : Type := detail.

Definition post_prefix : pystr := Eval vm_compute in u "post-".

(** [s] without the literal [lit] it starts with, if it does. *)
Fixpoint after_literal (lit s : pystr) : option pystr :=
  match lit with
  | [] => Some s
  | a :: lit' =>
      match s with
      | [] => None
      | b :: s' => if (a =? b)%N then after_literal lit' s' else None
      end
  end.

(** [\d+] at the head of [s] with nothing after it in the pattern: the
    longest run of digits ([None] when there is no digit). *)
Fixpoint leading_digits (s : pystr) : pystr :=
  match s with
  | [] => []
  | c :: s' => if is_decimal c then c :: leading_digits s' else []
  end.

(** [re.compile(r"^post-\d+").search(value)] finds a match: the filter
    [find] applies to the [id] attribute. *)
Definition id_is_post (value : pystr) : bool :=
  match after_literal post_prefix value with
  | Some (c :: _) => is_decimal c
  | _ => false
  end.

(** [re.match(r"post-(\d+)", value)]: group 1 of the match, if any. *)
Definition match_post (value : pystr) : option pystr :=
  match after_literal post_prefix value with
  | Some rest =>
      match leading_digits rest with
      | [] => None
      | ds => Some ds
      end
  | None => None
  end.

(** A parsed article page: the [id] attribute of each [<article>] in
    document order ([None] for a tag without one), and what the queries
    shared with the later revision find. *)
Record article_page := mkArticlePage {
  page_article_ids : list (option pystr);
  page_rest : shared_page
}.

(** [soup.find("article", id=re.compile(r"^post-\d+"))], as the [id] of the
    tag found: the first [<article>] whose [id] matches. *)
Fixpoint find_article (ids : list (option pystr)) : option pystr :=
  match ids with
  | [] => None
  | Some value :: ids' =>
      if id_is_post value then Some value else find_article ids'
  | None :: ids' => find_article ids'
  end.

(** The variable [postid] of [parse_article_content]. *)
Definition page_postid (soup : article_page) : option pystr :=
  match find_article (page_article_ids soup) with
  | Some value => match_post value
  | None => None
  end.

Record summary := mkSummary {
  s_article_url : pystr;
  s_category : option pystr;
  s_title : pystr;
  s_date_text_ar : option pystr
}.

(** The dict [parse_article_content] returns when the page was fetched:
    the post id, and the fields of the later revision. *)
Record detail := mkDetail {
  d_postid : option pystr;
  d_rest : shared_detail
}.

(** A row of [hespress_articles] as the [INSERT] statement gives it;
    [postid] is [NULL] when no post id was found. *)
Record article_row := mkRow {
  article_url : pystr;
  category : option pystr;
  title : pystr;
  date_text_ar : option pystr;
  date : option datetime;
  author : pystr;
  content : pystr;
  featured_image : pystr;
  tags : list pystr;
  postid : option pystr
}.

Definition table := list article_row.

(** The outside world of one run, as for the later revision. *)
Record world := mkWorld {
  listing_response : Z -> http_result listing_page;
  article_response : pystr -> http_result article_page;
  dateparser_parse : pystr -> option datetime;
  adapt_raises : article_row -> bool;
  store_refuses : article_row -> bool
}.

Inductive log_record : Type :=
| InfoTableEnsured
| InfoFetchingListing (page : Z)
| WarnSkippingPage (page status : Z)
| ErrorFetchingPage (page : Z)
| InfoFetchingArticle (url : pystr)
| WarnSkippingArticle (url : pystr) (status : Z)
| ErrorFetchingArticle (url : pystr)
| InfoInserted (id : option pystr) (d : option datetime)
| ErrorInserting (id : option pystr) (d : option datetime)
| InfoScrapingPage (page : Z)
| InfoNoArticles (page : Z)
| InfoTotal (total : Z).

Inductive event : Type :=
| GetListing (page : Z)
| GetArticle (url : pystr)
| SqlCreateTable
| SqlInsert (r : article_row)
| Logged (l : log_record)
| Sleep (tenths_of_second : Z)
| Printed (total : Z).

Definition M (A : Type) : Type := table -> A * table * list event.

Definition ret {A} (a : A) : M A := fun db => (a, db, []).

Definition bind {A B} (m : M A) (f : A -> M B) : M B :=
  fun db =>
    let '(a, db1, t1) := m db in
    let '(b, db2, t2) := f a db1 in
    (b, db2, t1 ++ t2).

Definition emit (e : event) : M unit := fun db => (tt, db, [e]).
Definition log (l : log_record) : M unit := emit (Logged l).
Definition get_table : M table := fun db => (db, db, []).
Definition put_table (db' : table) : M unit := fun _ => (tt, db', []).

Declare Scope earlier_scope.
Notation "x <- m ;; k" := (bind m (fun x => k))
  (at level 61, m at next level, right associativity) : earlier_scope.
Notation "m ;; k" := (bind m (fun _ => k))
  (at level 61, right associativity) : earlier_scope.
Local Open Scope earlier_scope.

Fixpoint for_each {A} (l : list A) (body : A -> M unit) : M unit :=
  match l with
  | [] => ret tt
  | x :: l' => body x ;; for_each l' body
  end.

Fixpoint for_fold {A S} (l : list A) (acc : S) (body : S -> A -> M S) : M S :=
  match l with
  | [] => ret acc
  | x :: l' => acc' <- body acc x ;; for_fold l' acc' body
  end.

Definition value_of {A} (r : A * table * list event) : A := fst (fst r).
Definition table_of {A} (r : A * table * list event) : table := snd (fst r).
Definition events_of {A} (r : A * table * list event) : list event := snd r.

Definition has_url (db : table) (url : pystr) : bool :=
  existsb (fun r => pystr_eqb (article_url r) url) db.

(** [create_table()]. *)
Definition create_table : M unit :=
  emit SqlCreateTable ;; log InfoTableEnsured.

(** [insert_article(article_data)].  [cur.execute] raises when psycopg2
    cannot send the row.  Otherwise the statement is [INSERT ... ON CONFLICT
    (article_url) DO NOTHING], the URL being the only [UNIQUE] column: a row
    whose URL is in the table is dropped without an error, a row the server
    refuses to add makes the statement raise, any other row is added.  The
    [except Exception] branch logs the error and the row is not stored. *)
Definition insert_article (w : world) (article_data : article_row) : M unit :=
  emit (SqlInsert article_data) ;;
  if adapt_raises w article_data then
    log (ErrorInserting (postid article_data) (date article_data))
  else
    db <- get_table ;;
    if has_url db (article_url article_data) then
      log (InfoInserted (postid article_data) (date article_data))
    else if store_refuses w article_data then
      log (ErrorInserting (postid article_data) (date article_data))
    else
      put_table (db ++ [article_data]) ;;
      log (InfoInserted (postid article_data) (date article_data)).

(** The body of the loop of [parse_listing_page] over the cards. *)
Definition listing_step (results : list summary) (div : card) : list summary :=
  let category := card_cat div in
  match card_link div with
  | None => results                                   (* continue *)
  | Some link_a =>
      let url := strip (attr_or_empty (a_href link_a)) in
      let article_title := strip (attr_or_empty (a_title link_a)) in
      let date_text := card_time div in
      if negb (truthy url) then results               (* continue *)
      else
        results ++
        [ {| s_article_url := url;
             s_category := category;
             s_title := article_title;
             s_date_text_ar := date_text |} ]
  end.

Definition listing_summaries (articles_divs : listing_page) : list summary :=
  fold_left listing_step articles_divs [].

Section Pipeline.

Variable w : world.

(** [parse_listing_page(page_number)]. *)
Definition parse_listing_page (page_number : Z) : M (list summary) :=
  log (InfoFetchingListing page_number) ;;
  emit (GetListing page_number) ;;
  match listing_response w page_number with
  | RequestException =>
      log (ErrorFetchingPage page_number) ;; ret []
  | Response status_code soup =>
      if negb (status_code =? 200)%Z then
        log (WarnSkippingPage page_number status_code) ;; ret []
      else ret (listing_summaries soup)
  end.

(** [parse_article_content(article_url)]; [None] is the empty dict. *)
Definition parse_article_content (url : pystr) : M (option detail) :=
  log (InfoFetchingArticle url) ;;
  emit (GetArticle url) ;;
  match article_response w url with
  | RequestException =>
      log (ErrorFetchingArticle url) ;; ret None
  | Response status_code soup =>
      if negb (status_code =? 200)%Z then
        log (WarnSkippingArticle url status_code) ;; ret None
      else ret (Some {| d_postid := page_postid soup;
                        d_rest := article_detail (page_rest soup) |})
  end.

(** [parse_arabic_date(date_text_ar)]. *)
Definition parse_arabic_date (date_text : option pystr) : option datetime :=
  if negb (truthy_opt date_text) then None
  else
    match normalize_moroccan_months date_text with
    | Some normalized_text => dateparser_parse w normalized_text
    | None => None
    end.

(** The dict [article_data] built from a summary and [detail_data]. *)
Definition merge (s : summary) (detail_data : option detail) : article_row :=
  let date_text :=
    py_or (option_map (fun d => d_date_text_ar (d_rest d)) detail_data)
          (s_date_text_ar s) in
  let date_parsed := parse_arabic_date date_text in
  {| article_url := s_article_url s;
     postid := match detail_data with Some d => d_postid d | None => None end;
     category := s_category s;
     title := s_title s;
     date_text_ar := date_text;
     date := date_parsed;
     author :=
       match detail_data with Some d => d_author (d_rest d) | None => [] end;
     content :=
       match detail_data with Some d => d_content (d_rest d) | None => [] end;
     featured_image :=
       match detail_data with
       | Some d => d_featured_image (d_rest d)
       | None => []
       end;
     tags :=
       match detail_data with Some d => d_tags (d_rest d) | None => [] end |}.

(** The body of the [for summary in articles_summaries] loop. *)
Definition process_summary (s : summary) : M unit :=
  detail_data <- parse_article_content (s_article_url s) ;;
  insert_article w (merge s detail_data) ;;
  emit (Sleep 5).

(** The body of the [for page_num in range(...)] loop. *)
Definition scrape_page (total_articles_fetched : Z) (page_num : Z) : M Z :=
  log (InfoScrapingPage page_num) ;;
  articles_summaries <- parse_listing_page page_num ;;
  match articles_summaries with
  | [] => log (InfoNoArticles page_num) ;; ret total_articles_fetched
  | _ :: _ =>
      let total := (total_articles_fetched
                    + Z.of_nat (List.length articles_summaries))%Z in
      for_each articles_summaries process_summary ;;
      emit (Sleep 10) ;;
      ret total
  end.

(** [scrape_hespress(start_page, end_page)]. *)
Definition scrape_hespress (start_page end_page : Z) : M py_value :=
  create_table ;;
  total <- for_fold (pages start_page end_page) 0%Z scrape_page ;;
  log (InfoTotal total) ;;
  emit (Printed total) ;;
  ret PyNone.

End Pipeline.

(* ------------------------------------------------------------------ *)
(** ** The vocabulary of the properties *)

Definition article_requests (evs : list event) : list pystr :=
  flat_map (fun e => match e with GetArticle x => [x] | _ => [] end) evs.

Definition insert_attempts (evs : list event) : list article_row :=
  flat_map (fun e => match e with SqlInsert r => [r] | _ => [] end) evs.

Definition page_summaries (w : world) (p : Z) : list summary :=
  match listing_response w p with
  | Response status_code soup =>
      if (status_code =? 200)%Z then listing_summaries soup else []
  | RequestException => []
  end.

Definition fetched_detail (w : world) (url : pystr) : option detail :=
  match article_response w url with
  | Response status_code soup =>
      if (status_code =? 200)%Z
      then Some {| d_postid := page_postid soup;
                   d_rest := article_detail (page_rest soup) |}
      else None
  | RequestException => None
  end.

Definition summaries_seen (w : world) (start_page end_page : Z)
  : list summary :=
  flat_map (page_summaries w) (pages start_page end_page).

(** The store cannot hold the row, whatever the table holds. *)
Definition refused (w : world) (r : article_row) : bool :=
  adapt_raises w r || store_refuses w r.

(** What [insert_article] does to the table. *)
Definition insert_row (w : world) (db : table) (r : article_row) : table :=
  if adapt_raises w r then db
  else if has_url db (article_url r) then db
  else if store_refuses w r then db
  else db ++ [r].

End Earlier.

(** A summary of the later revision without its post id. *)
Definition forget_postid (s : summary) : Earlier.summary :=
  {| Earlier.s_article_url := s_article_url s;
     Earlier.s_category := s_category s;
     Earlier.s_title := s_title s;
     Earlier.s_date_text_ar := s_date_text_ar s |}.

(* ================================================================== *)
(** * Facts about strings *)
(* ================================================================== *)

Unset Implicit Arguments.

Section StringFacts.

Lemma pystr_eqb_eq (a b : pystr) : pystr_eqb a b = true <-> a = b.
Proof.
  unfold pystr_eqb. destruct (list_eq_dec N.eq_dec a b); split; congruence.
Qed.

Lemma pystr_eqb_refl (a : pystr) : pystr_eqb a a = true.
Proof. now apply pystr_eqb_eq. Qed.

Lemma starts_with_app (p s : pystr) : starts_with p (p ++ s) = true.
Proof.
  induction p as [|a p IH]; simpl; [reflexivity|].
  now rewrite N.eqb_refl, IH.
Qed.

Lemma starts_with_length (p s : pystr) :
  starts_with p s = true -> List.length p <= List.length s.
Proof.
  revert s. induction p as [|a p IH]; intros [|b s] H; simpl in *;
    try lia; try discriminate.
  apply andb_true_iff in H. destruct H as [_ H]. apply IH in H. lia.
Qed.

Lemma contains_starts_with (p s : pystr) :
  starts_with p s = true -> contains p s = true.
Proof. intros H. destruct s; simpl; now rewrite H. Qed.

Lemma contains_app (p a b : pystr) : contains p (a ++ p ++ b) = true.
Proof.
  induction a as [|c a IH]; simpl.
  - apply contains_starts_with, starts_with_app.
  - rewrite IH. apply orb_true_r.
Qed.

Lemma foreign_head a old c : foreign (a :: old) c = true -> a <> c.
Proof.
  unfold foreign. simpl. intros H Hac. subst.
  now rewrite N.eqb_refl in H.
Qed.

Lemma foreign_tail a old c :
  foreign (a :: old) c = true -> foreign old c = true.
Proof.
  unfold foreign. simpl. intros H.
  apply negb_true_iff in H. apply orb_false_iff in H.
  apply negb_true_iff. tauto.
Qed.

Lemma starts_with_foreign_head old c s :
  old <> [] -> foreign old c = true -> starts_with old (c :: s) = false.
Proof.
  destruct old as [|a old]; [congruence|]. intros _ H. simpl.
  apply foreign_head in H. apply N.eqb_neq in H. now rewrite H.
Qed.

(** A match of [old] cannot run into text made of foreign characters. *)
Lemma starts_with_app_foreign old m post :
  forallb (foreign old) post = true ->
  starts_with old (m ++ post) = starts_with old m.
Proof.
  revert m. induction old as [|a old IH]; intros m H; [reflexivity|].
  destruct m as [|c m]; simpl.
  - destruct post as [|b post]; [reflexivity|]. simpl in H.
    apply andb_true_iff in H. destruct H as [H _].
    apply foreign_head in H. apply N.eqb_neq in H. now rewrite H.
  - rewrite IH; [reflexivity|].
    apply forallb_forall. intros x Hx.
    eapply foreign_tail. eapply forallb_forall in H; eassumption.
Qed.

Variables old new : pystr.
Hypothesis old_nonempty : old <> [].

Lemma replace_from_absent s :
  contains old s = false -> replace_from old new 0 s = s.
Proof.
  induction s as [|c s IH]; intros H; [reflexivity|].
  cbn [contains] in H. apply orb_false_iff in H. destruct H as [H1 H2].
  cbn [replace_from]. rewrite H1. now rewrite IH.
Qed.

Lemma replace_from_foreign pre t :
  forallb (foreign old) pre = true ->
  replace_from old new 0 (pre ++ t) = pre ++ replace_from old new 0 t.
Proof.
  induction pre as [|c pre IH]; intros H; [reflexivity|].
  simpl in H. apply andb_true_iff in H. destruct H as [Hc H].
  change ((c :: pre) ++ t) with (c :: (pre ++ t)).
  cbn [replace_from].
  rewrite (starts_with_foreign_head _ _ _ old_nonempty Hc).
  now rewrite IH.
Qed.

Lemma replace_from_app_foreign post m skip :
  forallb (foreign old) post = true ->
  skip <= List.length m ->
  replace_from old new skip (m ++ post) = replace_from old new skip m ++ post.
Proof.
  intros Hpost. revert skip.
  induction m as [|c m IH]; intros skip Hskip.
  - simpl in Hskip. assert (skip = 0) by lia. subst skip. simpl.
    rewrite <- (app_nil_r post) at 1.
    rewrite (replace_from_foreign _ _ Hpost). now rewrite app_nil_r.
  - change ((c :: m) ++ post) with (c :: (m ++ post)).
    destruct skip as [|k]; cbn [replace_from].
    + change (c :: (m ++ post)) with ((c :: m) ++ post).
      rewrite (starts_with_app_foreign _ (c :: m) _ Hpost).
      destruct (starts_with old (c :: m)) eqn:E.
      * apply starts_with_length in E. simpl in E.
        rewrite IH by lia. now rewrite app_assoc.
      * rewrite IH by lia. reflexivity.
    + simpl in Hskip. apply IH. lia.
Qed.

Lemma replace_absent s : contains old s = false -> replace old new s = s.
Proof.
  intros H. unfold replace. rewrite (replace_from_absent _ H).
  destruct old; [congruence | reflexivity].
Qed.

(** Text made of foreign characters around [m] is left where it is. *)
Lemma replace_between_foreign pre m post :
  forallb (foreign old) pre = true ->
  forallb (foreign old) post = true ->
  replace old new (pre ++ m ++ post) = pre ++ replace old new m ++ post.
Proof.
  intros Hpre Hpost.
  assert (E : forall s, replace old new s = replace_from old new 0 s).
  { intros s. unfold replace. destruct old; [congruence | reflexivity]. }
  rewrite !E, (replace_from_foreign _ _ Hpre).
  now rewrite (replace_from_app_foreign _ _ _ Hpost) by lia.
Qed.

End StringFacts.

(* ================================================================== *)
(** * Replacements around a token *)
(* ================================================================== *)

Lemma starts_with_app_true (p s r : pystr) :
  starts_with p s = true -> starts_with p (s ++ r) = true.
Proof.
  revert s. induction p as [|a p IH]; intros [|c s] H; simpl in *;
    try reflexivity; try discriminate.
  apply andb_true_iff in H. destruct H as [-> H]. now rewrite IH.
Qed.

Lemma starts_with_app_short (p s r : pystr) :
  starts_with p (s ++ r) = true -> List.length p <= List.length s ->
  starts_with p s = true.
Proof.
  revert s. induction p as [|a p IH]; intros [|c s] H Hlen; simpl in *;
    try reflexivity; try lia.
  apply andb_true_iff in H. destruct H as [-> H].
  rewrite IH; [reflexivity | exact H | lia].
Qed.

(** A prefix of [z ++ b] is a prefix of [z], or [z] is a prefix of it. *)
Lemma starts_with_app_cases (p z b : pystr) :
  starts_with p (z ++ b) = true ->
  starts_with p z = true \/ starts_with z p = true.
Proof.
  revert z. induction p as [|a p IH]; intros z H; [now left|].
  destruct z as [|c z]; [now right|].
  simpl in H. apply andb_true_iff in H. destruct H as [Hac H].
  simpl. rewrite Hac. rewrite N.eqb_sym in Hac. rewrite Hac. simpl.
  now apply IH.
Qed.

(** An occurrence of [p] that starts with [x] and goes on into [r]. *)
Lemma starts_with_cross (p x r : pystr) :
  starts_with p (x ++ r) = true -> List.length x <= List.length p ->
  firstn (List.length x) p = x /\
  starts_with (skipn (List.length x) p) r = true.
Proof.
  revert p. induction x as [|c x IH]; intros p H Hlen; [now split|].
  destruct p as [|a p]; [simpl in Hlen; lia|].
  simpl in H. apply andb_true_iff in H. destruct H as [Hac H].
  apply N.eqb_eq in Hac. subst c.
  simpl in Hlen. destruct (IH p H ltac:(lia)) as [E1 E2].
  simpl. now rewrite E1.
Qed.

Section ReplaceFacts.

Variables old new : pystr.

Lemma replace_is_replace_from s :
  old <> [] -> replace old new s = replace_from old new 0 s.
Proof. intros H. unfold replace. destruct old; [congruence | reflexivity]. Qed.

(** The characters still to be dropped are dropped. *)
Lemma replace_from_skip m b :
  replace_from old new (List.length m) (m ++ b) = replace_from old new 0 b.
Proof. induction m as [|c m IH]; [reflexivity | exact IH]. Qed.

Lemma replace_from_none t :
  (forall q, starts_with old (skipn q t) = false) ->
  replace_from old new 0 t = t.
Proof.
  induction t as [|c t IH]; intros H; [reflexivity|].
  cbn [replace_from]. pose proof (H 0) as H0. cbn [skipn] in H0.
  rewrite H0. f_equal.
  apply IH. intros q. exact (H (S q)).
Qed.

(** When no occurrence of [old] that starts in [a] runs into [r], the
    replacement in [a ++ r] is made in [a] and in [r]. *)
Lemma replace_from_app a r skip :
  (forall q, q < List.length a ->
             starts_with old (skipn q (a ++ r)) = true ->
             q + List.length old <= List.length a) ->
  skip <= List.length a ->
  replace_from old new skip (a ++ r)
  = replace_from old new skip a ++ replace_from old new 0 r.
Proof.
  revert skip. induction a as [|c a IH]; intros skip H Hs.
  - simpl in Hs. now replace skip with 0 by lia.
  - assert (H' : forall q, q < List.length a ->
                           starts_with old (skipn q (a ++ r)) = true ->
                           q + List.length old <= List.length a).
    { intros q Hq Hocc. specialize (H (S q)). simpl in H.
      specialize (H ltac:(lia) Hocc). lia. }
    change ((c :: a) ++ r) with (c :: (a ++ r)).
    destruct skip as [|k]; cbn [replace_from].
    + destruct (starts_with old (c :: a ++ r)) eqn:E.
      * assert (Hlen : List.length old <= List.length (c :: a)).
        { specialize (H 0). simpl in H. apply H; [lia | exact E]. }
        change (c :: a ++ r) with ((c :: a) ++ r) in E.
        rewrite (starts_with_app_short _ _ _ E Hlen).
        rewrite IH; [now rewrite app_assoc | exact H' | simpl in Hlen; lia].
      * destruct (starts_with old (c :: a)) eqn:E2.
        { apply starts_with_app_true with (r := r) in E2.
          simpl in E2. congruence. }
        rewrite IH; [reflexivity | exact H' | lia].
    + apply IH; [exact H' | simpl in Hs; lia].
Qed.

Hypothesis old_nonempty : old <> [].

Lemma replace_same_from s skip :
  skip <= List.length s ->
  replace_from old old skip s = skipn skip s.
Proof.
  revert skip. induction s as [|c s IH]; intros skip H.
  - simpl in H. now replace skip with 0 by lia.
  - destruct skip as [|k]; cbn [replace_from skipn].
    + destruct (starts_with old (c :: s)) eqn:E; [|now rewrite IH by lia].
      assert (Hlen := starts_with_length _ _ E).
      destruct old as [|a old'] eqn:Eold; [congruence|].
      simpl in Hlen. simpl List.length.
      replace (S (List.length old') - 1) with (List.length old') by lia.
      rewrite IH by lia.
      simpl in E. apply andb_true_iff in E. destruct E as [Hac E].
      apply N.eqb_eq in Hac. subst a. simpl. f_equal.
      clear - E. revert s E. induction old' as [|a p IHp]; intros s E;
        [reflexivity|].
      destruct s as [|d s]; [discriminate|]. simpl in E.
      apply andb_true_iff in E. destruct E as [Had E].
      apply N.eqb_eq in Had. subst d. simpl. f_equal. now apply IHp.
    + apply IH. simpl in H. lia.
Qed.

(** The replacement leaves [t] where it is when no occurrence of [old]
    shares a character with it. *)
Lemma replace_around a t b :
  (forall q, starts_with old (skipn q (a ++ t ++ b)) = true ->
             q + List.length old <= List.length a \/
             List.length a + List.length t <= q) ->
  replace old new (a ++ t ++ b)
  = replace old new a ++ t ++ replace old new b.
Proof.
  intros H.
  assert (Hlen : 1 <= List.length old)
    by (destruct old; [congruence | simpl; lia]).
  assert (Hskip : forall q, skipn (List.length a + q) (a ++ t ++ b)
                            = skipn q (t ++ b)).
  { intros q. rewrite skipn_app, skipn_all2 by lia.
    now replace (List.length a + q - List.length a) with q by lia. }
  rewrite !replace_is_replace_from by exact old_nonempty.
  rewrite replace_from_app; [| |lia].
  2:{ intros q Hq Hocc. destruct (H q Hocc); lia. }
  f_equal.
  rewrite replace_from_app; [| |lia].
  2:{ intros q Hq Hocc. exfalso. specialize (H (List.length a + q)).
      rewrite Hskip in H. destruct (H Hocc); lia. }
  f_equal. apply replace_from_none. intros q.
  destruct (starts_with old (skipn q t)) eqn:Ho; [exfalso | reflexivity].
  assert (Hq : q < List.length t).
  { destruct (Nat.lt_ge_cases q (List.length t)) as [|Hge]; [assumption|].
    rewrite skipn_all2 in Ho by lia. destruct old; [congruence | discriminate]. }
  specialize (H (List.length a + q)). rewrite Hskip in H.
  rewrite skipn_app in H. replace (q - List.length t) with 0 in H by lia.
  apply starts_with_app_true with (r := skipn 0 b) in Ho.
  destruct (H Ho); lia.
Qed.

(** The replacement of an occurrence of [old] that no earlier occurrence
    runs into. *)
Lemma replace_token a b :
  (forall q, q < List.length a ->
             starts_with old (skipn q (a ++ old ++ b)) = true ->
             q + List.length old <= List.length a) ->
  replace old new (a ++ old ++ b)
  = replace old new a ++ new ++ replace old new b.
Proof.
  intros H.
  rewrite !replace_is_replace_from by exact old_nonempty.
  rewrite replace_from_app; [| exact H | lia].
  f_equal. clear H.
  destruct old as [|c old'] eqn:Eold; [congruence|].
  change ((c :: old') ++ b) with (c :: (old' ++ b)).
  cbn [replace_from].
  change (c :: old' ++ b) with ((c :: old') ++ b).
  rewrite starts_with_app. f_equal.
  simpl List.length.
  replace (S (List.length old') - 1) with (List.length old') by lia.
  rewrite <- Eold. apply replace_from_skip.
Qed.

(** An occurrence of [old] that starts before [t] ends before [t], or
    runs into it in one of the ways [left_crossings] lists. *)
Lemma left_crossing t a b q :
  q < List.length a ->
  starts_with old (skipn q (a ++ t ++ b)) = true ->
  q + List.length old <= List.length a \/
  (In (List.length a - q) (left_crossings old t) /\
   skipn q a = firstn (List.length a - q) old).
Proof.
  intros Hq Hocc.
  destruct (Nat.le_gt_cases (q + List.length old) (List.length a))
    as [|Hlong]; [now left|].
  right.
  rewrite skipn_app in Hocc.
  replace (q - List.length a) with 0 in Hocc by lia.
  change (skipn 0 (t ++ b)) with (t ++ b) in Hocc.
  assert (Hx : List.length (skipn q a) = List.length a - q)
    by apply length_skipn.
  destruct (starts_with_cross _ _ _ Hocc ltac:(lia)) as [Hf Hy].
  rewrite Hx in Hf, Hy. split; [|now rewrite Hf].
  unfold left_crossings. apply filter_In. split.
  - apply in_seq. lia.
  - apply starts_with_app_cases in Hy.
    destruct Hy as [-> | ->]; [reflexivity | apply orb_true_r].
Qed.

(** Where an occurrence of [old] can stand in [a ++ t ++ b]. *)
Lemma crossing_positions t a b q :
  inner_free old t = true ->
  starts_with old (skipn q (a ++ t ++ b)) = true ->
  q + List.length old <= List.length a \/
  List.length a + List.length t <= q \/
  (In (List.length a - q) (left_crossings old t) /\
   skipn q a = firstn (List.length a - q) old).
Proof.
  intros Hin Hocc.
  destruct (Nat.lt_ge_cases q (List.length a)) as [Hqa | Hqa].
  - destruct (left_crossing _ _ _ _ Hqa Hocc) as [H | H];
      [now left | now right; right].
  - right. left.
    destruct (Nat.le_gt_cases (List.length a + List.length t) q)
      as [|Hq]; [assumption | exfalso].
    rewrite skipn_app, skipn_all2 in Hocc by lia. simpl in Hocc.
    rewrite skipn_app in Hocc.
    replace (q - List.length a - List.length t) with 0 in Hocc by lia.
    apply starts_with_app_cases in Hocc.
    unfold inner_free in Hin. rewrite forallb_forall in Hin.
    specialize (Hin (q - List.length a) ltac:(apply in_seq; lia)).
    apply negb_true_iff, orb_false_iff in Hin. destruct Hin as [H1 H2].
    destruct Hocc; congruence.
Qed.

Lemma replace_crossfree t a b :
  crossfree old t = true ->
  replace old new (a ++ t ++ b)
  = replace old new a ++ t ++ replace old new b.
Proof.
  unfold crossfree. intros Hc.
  destruct (left_crossings old t) eqn:El; [|discriminate].
  apply replace_around. intros q Hocc.
  destruct (crossing_positions _ _ _ _ Hc Hocc) as [H | [H | [H _]]];
    [now left | now right |].
  rewrite El in H. destruct H.
Qed.

Lemma replace_from_nonempty s :
  new <> [] -> replace_from old new 0 s = [] -> s = [].
Proof.
  intros Hnew H. destruct s as [|c s]; [reflexivity|].
  cbn [replace_from] in H. destruct (starts_with old (c :: s)).
  - apply app_eq_nil in H. destruct H as [H _]. congruence.
  - discriminate.
Qed.

(** A last character that [new] does not have was the last character
    before the replacement. *)
Lemma replace_from_last c s skip p :
  new <> [] -> ~ In c new ->
  replace_from old new skip s = p ++ [c] ->
  exists p', s = p' ++ [c].
Proof.
  intros Hnew Hc. revert skip p.
  induction s as [|d s IH]; intros skip p H.
  - simpl in H. destruct p; discriminate.
  - destruct skip as [|k]; cbn [replace_from] in H.
    + destruct (starts_with old (d :: s)).
      * destruct (replace_from old new (List.length old - 1) s)
          as [|e rest] eqn:E using rev_ind.
        { rewrite app_nil_r in H. exfalso. apply Hc. rewrite H.
          apply in_or_app. right. now left. }
        clear IHrest. rewrite app_assoc in H.
        apply app_inj_tail in H. destruct H as [_ ->].
        destruct (IH _ _ E) as (p' & ->). now exists (d :: p').
      * destruct (replace_from old new 0 s) as [|e rest] eqn:E using rev_ind.
        { apply replace_from_nonempty in E; [|exact Hnew]. subst s.
          exists []. simpl. f_equal.
          destruct p as [|x p]; [now injection H | ].
          injection H as _ H. destruct p; discriminate. }
        clear IHrest. rewrite app_comm_cons in H.
        apply app_inj_tail in H. destruct H as [_ ->].
        destruct (IH _ _ E) as (p' & ->). now exists (d :: p').
    + destruct (IH _ _ H) as (p' & ->). now exists (d :: p').
Qed.

End ReplaceFacts.

Lemma replace_same old s : old <> [] -> replace old old s = s.
Proof.
  intros H. rewrite replace_is_replace_from by exact H.
  now rewrite replace_same_from by (exact H || lia).
Qed.

Lemma replace_last old new c s p :
  old <> [] -> new <> [] -> ~ In c new ->
  replace old new s = p ++ [c] -> exists p', s = p' ++ [c].
Proof.
  intros Hold Hnew Hc H. rewrite replace_is_replace_from in H by exact Hold.
  now apply (replace_from_last old new c s 0 p).
Qed.

(* ================================================================== *)
(** * Month normalization *)
(* ================================================================== *)

Lemma replace_months_absent table s :
  (forall kv, In kv table -> contains (fst kv) s = false) ->
  replace_months table s = s.
Proof.
  unfold replace_months. induction table as [|kv table IH]; intros H;
    [reflexivity|].
  simpl. assert (Hkv : contains (fst kv) s = false) by (apply H; now left).
  assert (Hne : fst kv <> []).
  { intros E. rewrite E in Hkv. destruct s; discriminate. }
  rewrite (replace_absent _ (snd kv) Hne _ Hkv).
  apply IH. intros kv' Hin. apply H. now right.
Qed.

Lemma replace_months_between table pre m post :
  (forall kv, In kv table ->
     fst kv <> [] /\
     forallb (foreign (fst kv)) pre = true /\
     forallb (foreign (fst kv)) post = true) ->
  replace_months table (pre ++ m ++ post)
  = pre ++ replace_months table m ++ post.
Proof.
  unfold replace_months. revert m.
  induction table as [|kv table IH]; intros m H; [reflexivity|].
  simpl. destruct (H kv (or_introl eq_refl)) as (Hne & Hpre & Hpost).
  rewrite (replace_between_foreign _ (snd kv) Hne _ _ _ Hpre Hpost).
  apply IH. intros kv' Hin. apply H. now right.
Qed.

Lemma outside_months_foreign s kv :
  outside_months s = true -> In kv MOROCCAN_MONTHS_MAP ->
  forallb (foreign (fst kv)) s = true.
Proof.
  intros H Hin. apply forallb_forall. intros c Hc.
  unfold outside_months in H.
  eapply forallb_forall in H; [|exact Hc].
  eapply forallb_forall in H; [|exact Hin]. exact H.
Qed.

Lemma months_keys_nonempty kv :
  In kv MOROCCAN_MONTHS_MAP -> fst kv <> [].
Proof.
  intros Hin E.
  assert (H : forallb (fun kv => truthy (fst kv)) MOROCCAN_MONTHS_MAP = true)
    by reflexivity.
  eapply forallb_forall in H; [|exact Hin]. rewrite E in H. discriminate.
Qed.

(** Each key of the table, on its own, is rewritten to its value. *)
Lemma months_key_to_value variant canonical :
  In (variant, canonical) MOROCCAN_MONTHS_MAP ->
  replace_months MOROCCAN_MONTHS_MAP variant = canonical.
Proof.
  intros Hin.
  assert (H : forallb (fun kv =>
                pystr_eqb (replace_months MOROCCAN_MONTHS_MAP (fst kv)) (snd kv))
              MOROCCAN_MONTHS_MAP = true) by (vm_compute; reflexivity).
  eapply forallb_forall in H; [|exact Hin]. now apply pystr_eqb_eq in H.
Qed.

Lemma normalize_some s :
  normalize_moroccan_months (Some s)
  = Some (replace_months MOROCCAN_MONTHS_MAP s).
Proof. destruct s; reflexivity. Qed.

(* ================================================================== *)
(** * A month name that overlaps no other *)
(* ================================================================== *)

Lemma holds_contains t s : holds t s -> contains t s = true.
Proof. intros (x & y & ->). apply contains_app. Qed.

Lemma replace_months_app l1 l2 s :
  replace_months (l1 ++ l2) s = replace_months l2 (replace_months l1 s).
Proof. apply fold_left_app. Qed.

(** The entries whose value is their key change nothing. *)
Lemma replace_months_real table s :
  (forall kv, In kv table -> fst kv <> []) ->
  replace_months table s = replace_months (real_replacements table) s.
Proof.
  unfold replace_months, real_replacements. revert s.
  induction table as [|[k v] table IH]; intros s H; [reflexivity|].
  assert (H' : forall kv', In kv' table -> fst kv' <> [])
    by (intros kv' Hin; apply H; now right).
  assert (Hk : k <> []) by (apply (H (k, v)); now left).
  cbn [filter fold_left fst snd].
  destruct (pystr_eqb k v) eqn:E; cbn [negb fold_left fst snd].
  - apply pystr_eqb_eq in E. subst v.
    rewrite replace_same by exact Hk. now apply IH.
  - now apply IH.
Qed.

Lemma months_real s :
  replace_months MOROCCAN_MONTHS_MAP s
  = replace_months after_july
      (replace july_variant july_canonical
         (replace may_variant may_canonical s)).
Proof.
  rewrite replace_months_real by exact months_keys_nonempty. reflexivity.
Qed.

Lemma truthy_nonempty (s : pystr) : truthy s = true -> s <> [].
Proof. destruct s; [discriminate | discriminate]. Qed.

(** A replacement whose key cannot overlap [t] keeps [t]. *)
Lemma step_crossfree old new t s :
  old <> [] -> crossfree old t = true ->
  holds t s -> holds t (replace old new s).
Proof.
  intros Hne Hc (x & y & ->).
  exists (replace old new x), (replace old new y).
  now apply replace_crossfree.
Qed.

Lemma steps_keep steps t s :
  steps_crossfree steps t = true ->
  holds t s -> holds t (replace_months steps s).
Proof.
  unfold steps_crossfree, replace_months. revert s.
  induction steps as [|kv steps IH]; intros s H Hs; [exact Hs|].
  simpl in H. apply andb_true_iff in H. destruct H as [H1 H2].
  apply andb_true_iff in H1. destruct H1 as [Hne Hc].
  simpl. apply IH; [exact H2|].
  apply step_crossfree; [now apply truthy_nonempty | exact Hc | exact Hs].
Qed.

(** The replacement of a key that cannot overlap itself puts the value in
    the place of each occurrence. *)
Lemma step_own k v s :
  k <> [] -> left_crossings k k = [] ->
  holds k s -> holds v (replace k v s).
Proof.
  intros Hne Hl (x & y & ->).
  exists (replace k v x), (replace k v y).
  apply replace_token; [exact Hne|].
  intros q Hq Hocc.
  destruct (left_crossing k k x y q Hq Hocc) as [H | [H _]]; [exact H|].
  rewrite Hl in H. destruct H.
Qed.

Lemma clear_of_positions k' a k b q :
  k' <> [] -> clear_of k' a k b = true ->
  starts_with k' (skipn q (a ++ k ++ b)) = true ->
  q + List.length k' <= List.length a \/
  List.length a + List.length k <= q.
Proof.
  intros Hne H Hocc. unfold clear_of in H. rewrite forallb_forall in H.
  destruct (Nat.lt_ge_cases q (List.length (a ++ k ++ b))) as [Hq | Hq].
  - specialize (H q ltac:(apply in_seq; lia)). rewrite Hocc in H.
    simpl in H. apply orb_true_iff in H.
    destruct H as [H | H]; apply Nat.leb_le in H; lia.
  - rewrite skipn_all2 in Hocc by lia.
    destruct k'; [congruence | discriminate].
Qed.

(** The replacement of a key none of whose occurrences overlaps the
    token. *)
Lemma replace_clear old new a k b :
  old <> [] -> clear_of old a k b = true ->
  replace old new (a ++ k ++ b)
  = replace old new a ++ k ++ replace old new b.
Proof.
  intros Hne H. apply replace_around; [exact Hne|].
  intros q. now apply clear_of_positions.
Qed.

Lemma overlap_free_clear a k b k' v' :
  overlap_free a k b = true ->
  In (k', v') MOROCCAN_MONTHS_MAP -> k' <> k ->
  clear_of k' a k b = true.
Proof.
  intros H Hin Hne. unfold overlap_free in H. rewrite forallb_forall in H.
  specialize (H _ Hin). simpl in H. apply orb_true_iff in H.
  destruct H as [H | H]; [|exact H].
  apply pystr_eqb_eq in H. contradiction.
Qed.

(** July rewrites "يوليوز" to "يوليو": a text that starts with "يو" still
    does afterwards. *)
Lemma july_keeps_head r :
  exists r',
    replace july_variant july_canonical (1610 :: 1608 :: r)%N
    = (1610 :: 1608 :: r')%N.
Proof.
  unfold july_variant, july_canonical, replace. cbn [replace_from].
  destruct (starts_with _ (1610 :: 1608 :: r)%N);
    [eexists; reflexivity|].
  replace (starts_with [1610; 1608; 1604; 1610; 1608; 1586]%N
                       (1608 :: r)%N) with false by reflexivity.
  eexists. reflexivity.
Qed.

(** July keeps a token that ends with "يو" when its key cannot overlap
    what stands before these two letters. *)
Lemma step_july p s :
  crossfree july_variant p = true ->
  holds (p ++ [1610; 1608]%N) s ->
  holds (p ++ [1610; 1608]%N) (replace july_variant july_canonical s).
Proof.
  intros Hc (x & y & ->).
  replace (x ++ (p ++ [1610; 1608]%N) ++ y)
    with (x ++ p ++ (1610 :: 1608 :: y)%N)
    by (now rewrite <- !app_assoc).
  rewrite replace_crossfree; [|discriminate | exact Hc].
  destruct (july_keeps_head y) as (r' & ->).
  exists (replace july_variant july_canonical x), r'.
  now rewrite <- !app_assoc.
Qed.

(** The months whose key stays what it is and overlaps no key that is
    rewritten: February, March, April and October. *)
Lemma month_kept k s :
  steps_crossfree (real_replacements MOROCCAN_MONTHS_MAP) k = true ->
  holds k s -> holds k (replace_months MOROCCAN_MONTHS_MAP s).
Proof.
  intros H Hs. rewrite replace_months_real by exact months_keys_nonempty.
  now apply steps_keep.
Qed.

(** The months whose key is rewritten and overlaps no other key that is:
    August, November and December. *)
Lemma month_rewritten before k v after s :
  real_replacements MOROCCAN_MONTHS_MAP = before ++ (k, v) :: after ->
  steps_crossfree before k = true ->
  k <> [] -> left_crossings k k = [] ->
  steps_crossfree after v = true ->
  holds k s -> holds v (replace_months MOROCCAN_MONTHS_MAP s).
Proof.
  intros E Hb Hne Hl Ha Hs.
  rewrite replace_months_real by exact months_keys_nonempty.
  rewrite E, replace_months_app.
  change (replace_months ((k, v) :: after) ?x)
    with (replace_months after (replace k v x)).
  apply steps_keep; [exact Ha|].
  apply step_own; [exact Hne | exact Hl|].
  now apply steps_keep.
Qed.

(** January: May is the one key that can run into it. *)
Lemma january_kept a b :
  clear_of may_variant a january b = true ->
  holds january (replace_months MOROCCAN_MONTHS_MAP (a ++ january ++ b)).
Proof.
  intros H. rewrite months_real.
  rewrite replace_clear; [|discriminate | exact H].
  apply steps_keep; [reflexivity|].
  apply step_crossfree; [discriminate | reflexivity|].
  now eexists _, _.
Qed.

(** June: May can run into it, and July can start in it; July then keeps
    the two letters it takes from it. *)
Lemma june_kept a b :
  clear_of may_variant a june b = true ->
  holds june (replace_months MOROCCAN_MONTHS_MAP (a ++ june ++ b)).
Proof.
  intros H. rewrite months_real.
  rewrite replace_clear; [|discriminate | exact H].
  apply steps_keep; [reflexivity|].
  apply (step_july [1610; 1608; 1606]%N); [reflexivity|].
  now eexists _, _.
Qed.

(** July: May is the one key that can run into it. *)
Lemma july_rewritten a b :
  clear_of may_variant a july_variant b = true ->
  holds july_canonical
        (replace_months MOROCCAN_MONTHS_MAP (a ++ july_variant ++ b)).
Proof.
  intros H. rewrite months_real.
  rewrite replace_clear; [|discriminate | exact H].
  apply steps_keep; [reflexivity|].
  apply step_own; [discriminate | reflexivity|].
  now eexists _, _.
Qed.

(** May, whatever stands around it: July can start in its value, and
    keeps the two letters it takes from it. *)
Lemma may_rewritten s :
  holds may_variant s ->
  holds may_canonical (replace_months MOROCCAN_MONTHS_MAP s).
Proof.
  intros H. rewrite months_real.
  apply steps_keep; [reflexivity|].
  apply (step_july [1605; 1575]%N); [reflexivity|].
  apply step_own; [discriminate | reflexivity | exact H].
Qed.

(** September: August is the one key that can run into it, with its
    first letter, and neither May nor July puts that letter before it. *)
Lemma september_rewritten a b :
  clear_of august_variant a september_variant b = true ->
  holds september_canonical
        (replace_months MOROCCAN_MONTHS_MAP (a ++ september_variant ++ b)).
Proof.
  intros H. rewrite months_real.
  rewrite (replace_crossfree may_variant may_canonical)
    by (discriminate || reflexivity).
  rewrite (replace_crossfree july_variant july_canonical)
    by (discriminate || reflexivity).
  set (a2 := replace july_variant july_canonical
               (replace may_variant may_canonical a)).
  set (b2 := replace july_variant july_canonical
               (replace may_variant may_canonical b)).
  change (replace_months after_july ?x)
    with (replace_months
            [(november_variant, november_canonical);
             (december_variant, december_canonical)]
            (replace september_variant september_canonical
               (replace august_variant august_canonical x))).
  apply steps_keep; [reflexivity|].
  apply step_own; [discriminate | reflexivity|].
  rewrite replace_around; [now eexists _, _ | discriminate|].
  intros q Hocc.
  destruct (crossing_positions august_variant september_variant a2 b2 q
              eq_refl Hocc)
    as [Hq | [Hq | [Hin Hx]]]; [now left | now right | exfalso].
  change (left_crossings august_variant september_variant) with [1] in Hin.
  destruct Hin as [Hin | []]. rewrite <- Hin in Hx.
  change (firstn 1 august_variant) with [1594%N] in Hx.
  assert (Ea2 : a2 = firstn q a2 ++ [1594%N])
    by (now rewrite <- Hx, firstn_skipn).
  unfold a2 in Ea2.
  apply replace_last in Ea2;
    [| discriminate | discriminate
     | simpl; intros [E | [E | [E | [E | [E | []]]]]]; discriminate].
  destruct Ea2 as (p1 & Ea1).
  apply replace_last in Ea1;
    [| discriminate | discriminate
     | simpl; intros [E | [E | [E | [E | []]]]]; discriminate].
  destruct Ea1 as (p0 & ->).
  assert (Hcl := clear_of_positions august_variant (p0 ++ [1594%N])
                   september_variant b (List.length p0)
                   ltac:(discriminate) H).
  rewrite <- app_assoc, skipn_app, skipn_all, Nat.sub_diag in Hcl.
  specialize (Hcl eq_refl). rewrite length_app in Hcl. simpl in Hcl. lia.
Qed.

(** C5, counterexample: in "مايوليوز" the May key "ماي" and the July key
    "يوليوز" share a letter.  May is replaced first, which breaks the July
    key, and the result "مايووليوز" does not hold the July value "يوليو". *)
Lemma normalize_overlapping_keys :
  In (july_variant, july_canonical) MOROCCAN_MONTHS_MAP /\
  contains july_variant (u "مايوليوز") = true /\
  normalize_moroccan_months (Some (u "مايوليوز")) = Some (u "مايووليوز") /\
  contains july_canonical (u "مايووليوز") = false /\
  ~ normalize_yields_canonical.
Proof.
  assert (Hin : In (july_variant, july_canonical) MOROCCAN_MONTHS_MAP)
    by (simpl; tauto).
  repeat split; try reflexivity; try exact Hin.
  intros H.
  destruct (H _ _ (u "مايوليوز") Hin eq_refl) as (t & Ht & Hc).
  vm_compute in Ht. injection Ht as <-. vm_compute in Hc. discriminate.
Qed.

(** In the counterexample the occurrence of the July key overlaps one of
    the May key. *)
Lemma overlapping_keys_overlap :
  u "مايوليوز" = u "ما" ++ july_variant ++ [] /\
  overlap_free (u "ما") july_variant [] = false.
Proof. split; reflexivity. Qed.

(** The normalization of a string that holds a key of the table at a place
    where it overlaps no occurrence of another key holds the value of that
    key. *)
Lemma normalize_overlap_free variant canonical a b :
  In (variant, canonical) MOROCCAN_MONTHS_MAP ->
  overlap_free a variant b = true ->
  holds canonical
        (replace_months MOROCCAN_MONTHS_MAP (a ++ variant ++ b)).
Proof.
  intros Hin Hfree.
  assert (Hs : forall k, holds k (a ++ k ++ b)) by (intros k; now eexists _, _).
  assert (Hmay : may_variant <> variant ->
                 clear_of may_variant a variant b = true).
  { apply (overlap_free_clear _ _ _ _ may_canonical Hfree). simpl; tauto. }
  assert (Haug : august_variant <> variant ->
                 clear_of august_variant a variant b = true).
  { apply (overlap_free_clear _ _ _ _ august_canonical Hfree). simpl; tauto. }
  unfold MOROCCAN_MONTHS_MAP in Hin. cbn [In] in Hin.
  destruct Hin as [E | [E | [E | [E | [E | [E | [E | [E | [E | [E | [E | [E
    | []]]]]]]]]]]]];
    injection E as E1 E2; subst variant canonical.
  - (* January *)
    apply january_kept, Hmay. discriminate.
  - (* February *)
    apply month_kept; [reflexivity | apply Hs].
  - (* March *)
    apply month_kept; [reflexivity | apply Hs].
  - (* April *)
    apply month_kept; [reflexivity | apply Hs].
  - (* May *)
    apply may_rewritten, Hs.
  - (* June *)
    apply june_kept, Hmay. discriminate.
  - (* July *)
    apply july_rewritten, Hmay. discriminate.
  - (* August *)
    apply (month_rewritten
             [(may_variant, may_canonical); (july_variant, july_canonical)]
             august_variant august_canonical
             [(september_variant, september_canonical);
              (november_variant, november_canonical);
              (december_variant, december_canonical)]);
      try reflexivity; [discriminate | apply Hs].
  - (* September *)
    apply september_rewritten, Haug. discriminate.
  - (* October *)
    apply month_kept; [reflexivity | apply Hs].
  - (* November *)
    apply (month_rewritten
             [(may_variant, may_canonical); (july_variant, july_canonical);
              (august_variant, august_canonical);
              (september_variant, september_canonical)]
             november_variant november_canonical
             [(december_variant, december_canonical)]);
      try reflexivity; [discriminate | apply Hs].
  - (* December *)
    apply (month_rewritten
             [(may_variant, may_canonical); (july_variant, july_canonical);
              (august_variant, august_canonical);
              (september_variant, september_canonical);
              (november_variant, november_canonical)]
             december_variant december_canonical []);
      try reflexivity; [discriminate | apply Hs].
Qed.

(** C5, amended: for every entry of the table, the normalization of a
    string that holds the key at a place where it overlaps no occurrence
    of another key of the table holds the value of that key; a string that
    holds no key is returned unchanged, and so are the empty string and
    [None]. *)
Theorem normalize_moroccan_months_spec :
  (forall variant canonical a b,
      In (variant, canonical) MOROCCAN_MONTHS_MAP ->
      overlap_free a variant b = true ->
      exists t,
        normalize_moroccan_months (Some (a ++ variant ++ b)) = Some t /\
        contains canonical t = true) /\
  (forall s,
      (forall variant canonical,
          In (variant, canonical) MOROCCAN_MONTHS_MAP ->
          contains variant s = false) ->
      normalize_moroccan_months (Some s) = Some s) /\
  normalize_moroccan_months (Some []) = Some [] /\
  normalize_moroccan_months None = None.
Proof.
  split.
  { intros variant canonical a b Hin Hfree.
    exists (replace_months MOROCCAN_MONTHS_MAP (a ++ variant ++ b)).
    split; [apply normalize_some|].
    now apply holds_contains, normalize_overlap_free. }
  split; [|split; reflexivity].
  intros s H. rewrite normalize_some. f_equal.
  apply replace_months_absent. intros [k v] Hin. exact (H k v Hin).
Qed.

(** The amended C5 on a date as the site writes it, with the day of the
    week before it, "الأحد 3 نونبر 2024 - 10:15", and on a text with no
    month name. *)
Lemma normalize_moroccan_months_spec_witness :
  overlap_free (u "الأحد 3 ") november_variant (u " 2024 - 10:15") = true /\
  normalize_moroccan_months (Some (u "الأحد 3 نونبر 2024 - 10:15"))
  = Some (u "الأحد 3 نوفمبر 2024 - 10:15") /\
  (exists t,
      normalize_moroccan_months
        (Some (u "الأحد 3 " ++ november_variant ++ u " 2024 - 10:15"))
      = Some t /\
      contains november_canonical t = true) /\
  normalize_moroccan_months (Some (u "2024-05-12")) = Some (u "2024-05-12").
Proof.
  destruct normalize_moroccan_months_spec as (Hkey & Habsent & _).
  split; [reflexivity|]. split; [reflexivity|]. split.
  - apply (Hkey november_variant november_canonical).
    + simpl; tauto.
    + reflexivity.
  - apply Habsent. intros k v Hin.
    assert (H : forallb (fun kv => negb (contains (fst kv) (u "2024-05-12")))
                  MOROCCAN_MONTHS_MAP = true) by reflexivity.
    eapply forallb_forall in H; [|exact Hin]. now apply negb_true_iff in H.
Defined.

(** C10: normalization is not idempotent.  The May key "ماي" becomes
    "مايو", which starts with the May key again, and a second application
    rewrites it to "مايوو". *)
Theorem normalize_not_idempotent :
  normalize_moroccan_months (Some may_variant) = Some may_canonical /\
  starts_with may_variant may_canonical = true /\
  normalize_moroccan_months (normalize_moroccan_months (Some may_variant))
  = Some (u "مايوو") /\
  exists s,
    normalize_moroccan_months (normalize_moroccan_months s)
    <> normalize_moroccan_months s.
Proof.
  repeat split.
  exists (Some may_variant). vm_compute. discriminate.
Qed.

(* ================================================================== *)
(** * The post id pattern *)
(* ================================================================== *)

Lemma last_dot_html (a : pystr) : last (a ++ dot_html) 0%N = 108%N.
Proof.
  change dot_html with ([46; 104; 116; 109] ++ [108])%N.
  rewrite app_assoc. apply last_last.
Qed.

Lemma last_dot_html_nl (a : pystr) :
  last (a ++ dot_html ++ [newline]) 0%N = newline.
Proof. rewrite !app_assoc. apply last_last. Qed.

(** The two ways a string can end in [.html] and what [$] accepts do not
    mix. *)
Lemma dollar_rest_unique a b nl nl' :
  dollar_rest nl -> dollar_rest nl' ->
  a ++ dot_html ++ nl = b ++ dot_html ++ nl' -> a = b /\ nl = nl'.
Proof.
  intros [-> | ->] [-> | ->] E.
  - rewrite !app_nil_r in E. apply app_inv_tail in E. tauto.
  - apply (f_equal (fun l => last l 0%N)) in E.
    rewrite app_nil_r, last_dot_html, last_dot_html_nl in E. discriminate.
  - apply (f_equal (fun l => last l 0%N)) in E.
    rewrite app_nil_r, last_dot_html, last_dot_html_nl in E. discriminate.
  - apply app_inv_tail in E. tauto.
Qed.

Lemma literal_then_dollar_sound lit s :
  literal_then_dollar lit s = true ->
  exists nl, dollar_rest nl /\ s = lit ++ nl.
Proof.
  revert s. induction lit as [|a lit IH]; intros s H; simpl in H.
  - exists s. split; [|reflexivity]. unfold dollar_rest.
    destruct s as [|c [|d s]]; try discriminate; [now left|].
    apply N.eqb_eq in H. subst. now right.
  - destruct s as [|b s]; [discriminate|].
    apply andb_true_iff in H. destruct H as [Hab H].
    apply N.eqb_eq in Hab. subst b.
    destruct (IH _ H) as (nl & Hnl & ->). now exists nl.
Qed.

Lemma literal_then_dollar_complete lit nl :
  dollar_rest nl -> literal_then_dollar lit (lit ++ nl) = true.
Proof.
  intros Hnl. induction lit as [|a lit IH]; simpl.
  - destruct Hnl as [-> | ->]; reflexivity.
  - now rewrite N.eqb_refl.
Qed.

Lemma digits_then_tail_sound s ds :
  digits_then_tail s = Some ds ->
  ds <> [] /\ forallb is_decimal ds = true /\
  exists nl, dollar_rest nl /\ s = ds ++ dot_html ++ nl.
Proof.
  revert ds. induction s as [|c s IH]; intros ds H;
    cbn [digits_then_tail] in H; [discriminate|].
  destruct (is_decimal c) eqn:Hc; [|discriminate].
  destruct (digits_then_tail s) as [ds'|] eqn:E.
  - injection H as <-. destruct (IH _ eq_refl) as (_ & Hall & nl & Hnl & ->).
    split; [discriminate|]. split; [simpl; now rewrite Hc|].
    now exists nl.
  - destruct (literal_then_dollar dot_html s) eqn:L; [|discriminate].
    injection H as <-.
    split; [discriminate|]. split; [simpl; now rewrite Hc|].
    destruct (literal_then_dollar_sound _ _ L) as (nl & Hnl & ->).
    now exists nl.
Qed.

Lemma digits_then_tail_complete ds nl :
  ds <> [] -> forallb is_decimal ds = true -> dollar_rest nl ->
  digits_then_tail (ds ++ dot_html ++ nl) = Some ds.
Proof.
  intros Hne Hall Hnl. induction ds as [|c ds IH]; [congruence|].
  simpl in Hall. apply andb_true_iff in Hall. destruct Hall as [Hc Hall].
  change ((c :: ds) ++ dot_html ++ nl) with (c :: (ds ++ dot_html ++ nl)).
  cbn [digits_then_tail]. rewrite Hc.
  destruct ds as [|d ds].
  - change ([] ++ dot_html ++ nl) with (dot_html ++ nl).
    replace (digits_then_tail (dot_html ++ nl)) with (@None pystr)
      by (destruct Hnl as [-> | ->]; reflexivity).
    now rewrite (literal_then_dollar_complete dot_html nl Hnl).
  - rewrite IH; [reflexivity | discriminate | exact Hall].
Qed.

Lemma re_search_sound s g :
  re_search s = Some g -> trailing_id_nl s g.
Proof.
  induction s as [|c s IH]; intros H; simpl in H; [discriminate|].
  destruct (c =? hyphen)%N eqn:Hc.
  - apply N.eqb_eq in Hc. subst c.
    destruct (digits_then_tail s) as [g'|] eqn:E.
    + injection H as <-.
      destruct (digits_then_tail_sound _ _ E) as (Hne & Hall & nl & Hnl & ->).
      repeat split; try assumption. now exists [], nl.
    + destruct (IH H) as (Hne & Hall & pre & nl & Hnl & ->).
      repeat split; try assumption. now exists (hyphen :: pre), nl.
  - destruct (IH H) as (Hne & Hall & pre & nl & Hnl & ->).
    repeat split; try assumption. now exists (c :: pre), nl.
Qed.

(** The hyphen that opens the match is the last one of the string, so no
    earlier position matches. *)
Lemma re_search_complete pre ds nl :
  ds <> [] -> forallb is_decimal ds = true -> dollar_rest nl ->
  re_search (pre ++ [hyphen] ++ ds ++ dot_html ++ nl) = Some ds.
Proof.
  intros Hne Hall Hnl. induction pre as [|c pre IH].
  - change ([] ++ [hyphen] ++ ds ++ dot_html ++ nl)
      with (hyphen :: (ds ++ dot_html ++ nl)).
    cbn [re_search match_here]. rewrite N.eqb_refl.
    now rewrite digits_then_tail_complete.
  - change ((c :: pre) ++ [hyphen] ++ ds ++ dot_html ++ nl)
      with (c :: (pre ++ [hyphen] ++ ds ++ dot_html ++ nl)).
    cbn [re_search match_here].
    destruct (c =? hyphen)%N; [|exact IH].
    destruct (digits_then_tail (pre ++ [hyphen] ++ ds ++ dot_html ++ nl))
      as [g|] eqn:E; [exfalso | exact IH].
    destruct (digits_then_tail_sound _ _ E) as (_ & Hg & nl' & Hnl' & E').
    replace (pre ++ [hyphen] ++ ds ++ dot_html ++ nl)
      with ((pre ++ [hyphen] ++ ds) ++ dot_html ++ nl) in E'
      by (now rewrite <- !app_assoc).
    apply dollar_rest_unique in E'; try assumption.
    destruct E' as [E' _]. subst g.
    rewrite forallb_app in Hg. apply andb_true_iff in Hg.
    destruct Hg as [_ Hg]. simpl in Hg. discriminate.
Qed.

Lemma trailing_id_nl_of url ds : trailing_id url ds -> trailing_id_nl url ds.
Proof.
  intros (Hne & Hall & pre & ->). repeat split; try assumption.
  exists pre, []. split; [now left | now rewrite app_nil_r].
Qed.

Lemma extract_post_id_trailing_nl url ds :
  trailing_id_nl url ds -> extract_post_id_from_url url = ds.
Proof.
  intros (Hne & Hall & pre & nl & Hnl & ->). unfold extract_post_id_from_url.
  now rewrite re_search_complete.
Qed.

Lemma extract_post_id_cases url :
  trailing_id_nl url (extract_post_id_from_url url) \/
  (extract_post_id_from_url url = [] /\ forall ds, ~ trailing_id_nl url ds).
Proof.
  unfold extract_post_id_from_url.
  destruct (re_search url) as [g|] eqn:E.
  - left. now apply re_search_sound.
  - right. split; [reflexivity|]. intros ds (Hne & Hall & pre & nl & Hnl & ->).
    rewrite re_search_complete in E by assumption. discriminate.
Qed.

(** Outside the URLs: [$] also matches before a newline that ends the
    string, so "x-1.html" followed by a newline, which does not end in
    [-<digits>.html], has the post id "1".  No URL is of this kind, and
    the one call of the function passes [href.strip()]. *)
Lemma extract_post_id_before_newline :
  (forall ds, ~ trailing_id (u "x-1.html" ++ [newline]) ds) /\
  extract_post_id_from_url (u "x-1.html" ++ [newline]) = u "1".
Proof.
  assert (Hno : forall ds, ~ trailing_id (u "x-1.html" ++ [newline]) ds).
  { intros ds (_ & _ & pre & E).
    apply (f_equal (fun l => last l 0%N)) in E.
    replace (pre ++ [hyphen] ++ ds ++ dot_html)
      with ((pre ++ [hyphen] ++ ds) ++ dot_html) in E
      by (now rewrite <- !app_assoc).
    rewrite last_dot_html in E. vm_compute in E. discriminate. }
  split; [exact Hno | reflexivity].
Qed.

(** C4: the post id of a URL that ends with a hyphen, a run of decimal
    digits (the class [\d]) and [.html] is that run of digits, and the
    post id of a URL that has no such ending is the empty string.  A URL
    holds no line break; all that is used of it is that its last character
    is not a newline, as is the case of every URL of a summary after
    [strip()].  The two examples of the specification are evaluated.  For
    the strings that are no URLs the last two parts give the result as
    well: the [.html] may then be followed by one last newline. *)
Theorem extract_post_id_from_url_spec :
  (forall url ds,
      trailing_id url ds -> extract_post_id_from_url url = ds) /\
  (forall url,
      last url 0%N <> newline ->
      (forall ds, ~ trailing_id url ds) ->
      extract_post_id_from_url url = []) /\
  extract_post_id_from_url (u "https://www.hespress.com/foo-bar-66055.html")
  = u "66055" /\
  extract_post_id_from_url (u "https://www.hespress.com/foo-bar.html") = [] /\
  (forall s ds,
      trailing_id_nl s ds -> extract_post_id_from_url s = ds) /\
  (forall s,
      (forall ds, ~ trailing_id_nl s ds) ->
      extract_post_id_from_url s = []).
Proof.
  split.
  { intros url ds H. now apply extract_post_id_trailing_nl, trailing_id_nl_of. }
  split; [|split; [reflexivity|]; split; [reflexivity|];
           split; [exact extract_post_id_trailing_nl|];
           intros url Hno; destruct (extract_post_id_cases url) as [H | [H _]];
           [now apply Hno in H | exact H]].
  intros url Hlast Hno.
  destruct (extract_post_id_cases url) as [H | [H _]]; [exfalso | exact H].
  destruct H as (Hne & Hall & pre & nl & [-> | ->] & E).
  - apply (Hno (extract_post_id_from_url url)).
    repeat split; try assumption. exists pre. now rewrite app_nil_r in E.
  - apply Hlast. rewrite E at 1.
    replace (pre ++ [hyphen] ++ extract_post_id_from_url url
             ++ dot_html ++ [newline])
      with ((pre ++ [hyphen] ++ extract_post_id_from_url url)
            ++ dot_html ++ [newline]) by (now rewrite <- !app_assoc).
    apply last_dot_html_nl.
Qed.

(* ================================================================== *)
(** * Listing pages *)
(* ================================================================== *)

Lemma listing_step_card results c :
  listing_step results c
  = results ++ match card_summary c with Some s => [s] | None => [] end.
Proof.
  unfold listing_step, card_summary, card_url.
  destruct (card_link c) as [a|]; [|now rewrite app_nil_r].
  destruct (truthy (strip (attr_or_empty (a_href a)))); simpl;
    [reflexivity | now rewrite app_nil_r].
Qed.

Lemma listing_fold results doc :
  fold_left listing_step doc results = results ++ extract_summaries doc.
Proof.
  revert results. induction doc as [|c doc IH]; intros results; simpl.
  - now rewrite app_nil_r.
  - rewrite IH, listing_step_card. now rewrite <- app_assoc.
Qed.

Lemma listing_summaries_extract doc :
  listing_summaries doc = extract_summaries doc.
Proof. unfold listing_summaries. now rewrite listing_fold. Qed.

Lemma extract_summaries_app d1 d2 :
  extract_summaries (d1 ++ d2) = extract_summaries d1 ++ extract_summaries d2.
Proof. unfold extract_summaries. now rewrite flat_map_app. Qed.

Lemma card_summary_url c :
  option_map s_article_url (card_summary c) = card_url c.
Proof.
  unfold card_summary. destruct (card_link c) eqn:E.
  - destruct (card_url c); reflexivity.
  - unfold card_url. now rewrite E.
Qed.

(** The post id of a summary is the one its URL gives. *)
Lemma listing_summaries_postid doc s :
  In s (listing_summaries doc) ->
  s_postid s = extract_post_id_from_url (s_article_url s).
Proof.
  rewrite listing_summaries_extract. unfold extract_summaries.
  rewrite in_flat_map. intros (c & _ & H).
  unfold card_summary in H.
  destruct (card_link c); [|contradiction].
  destruct (card_url c); [|contradiction].
  destruct H as [<- | []]. reflexivity.
Qed.

(** C8: the summaries of a listing page are, in document order, those of
    the cards that have a link whose [href] is not empty once stripped;
    a card without a link, or whose [href] strips to nothing, contributes
    nothing wherever it stands.  So three such cards and one card without a
    link give exactly the three summaries, in the order of their cards. *)
Theorem listing_summaries_spec :
  (forall doc, listing_summaries doc = extract_summaries doc) /\
  (forall doc,
      map s_article_url (listing_summaries doc)
      = flat_map (fun c => match card_url c with Some x => [x] | None => [] end)
                 doc) /\
  (forall doc,
      List.length (listing_summaries doc)
      = List.length (filter (fun c => is_some (card_url c)) doc)) /\
  (forall c, card_link c = None -> card_summary c = None) /\
  (forall c a, card_link c = Some a ->
               strip (attr_or_empty (a_href a)) = [] ->
               card_summary c = None) /\
  (forall before c after,
      card_summary c = None ->
      listing_summaries (before ++ c :: after)
      = listing_summaries (before ++ after)) /\
  (forall c1 c2 c3 s1 s2 s3 bad,
      card_summary c1 = Some s1 ->
      card_summary c2 = Some s2 ->
      card_summary c3 = Some s3 ->
      card_link bad = None ->
      listing_summaries [bad; c1; c2; c3] = [s1; s2; s3] /\
      listing_summaries [c1; bad; c2; c3] = [s1; s2; s3] /\
      listing_summaries [c1; c2; bad; c3] = [s1; s2; s3] /\
      listing_summaries [c1; c2; c3; bad] = [s1; s2; s3]).
Proof.
  assert (Hlink : forall c, card_link c = None -> card_summary c = None).
  { intros c H. unfold card_summary. now rewrite H. }
  split; [exact listing_summaries_extract|].
  split.
  { intros doc. rewrite listing_summaries_extract. unfold extract_summaries.
    induction doc as [|c doc IH]; [reflexivity|]. simpl.
    rewrite map_app, IH. f_equal.
    rewrite <- card_summary_url. now destruct (card_summary c). }
  split.
  { intros doc. rewrite listing_summaries_extract. unfold extract_summaries.
    induction doc as [|c doc IH]; [reflexivity|]. simpl.
    rewrite length_app, IH, <- card_summary_url.
    now destruct (card_summary c). }
  split; [exact Hlink|].
  split.
  { intros c a Ha Hurl. unfold card_summary, card_url.
    now rewrite Ha, Hurl. }
  split.
  { intros before c after H. rewrite !listing_summaries_extract.
    rewrite !extract_summaries_app. f_equal.
    unfold extract_summaries. simpl. now rewrite H. }
  intros c1 c2 c3 s1 s2 s3 bad H1 H2 H3 Hbad.
  apply Hlink in Hbad.
  rewrite !listing_summaries_extract. unfold extract_summaries. simpl.
  rewrite H1, H2, H3, Hbad. repeat split; reflexivity.
Qed.

(* ================================================================== *)
(** * Running computations *)
(* ================================================================== *)

Local Open Scope py_scope.

Lemma bind_run {A B} (m : M A) (f : A -> M B) db :
  bind m f db
  = (value_of (f (value_of (m db)) (table_of (m db))),
     table_of (f (value_of (m db)) (table_of (m db))),
     events_of (m db) ++ events_of (f (value_of (m db)) (table_of (m db)))).
Proof.
  unfold bind, value_of, table_of, events_of.
  destruct (m db) as [[a db1] t1]. simpl.
  destruct (f a db1) as [[b db2] t2]. reflexivity.
Qed.

Lemma value_of_triple {A} (a : A) db evs : value_of (a, db, evs) = a.
Proof. reflexivity. Qed.

Lemma table_of_triple {A} (a : A) db evs : table_of (a, db, evs) = db.
Proof. reflexivity. Qed.

Lemma events_of_triple {A} (a : A) db evs : events_of (a, db, evs) = evs.
Proof. reflexivity. Qed.

Lemma emit_run e db : emit e db = (tt, db, [e]).
Proof. reflexivity. Qed.

Lemma log_run l db : log l db = (tt, db, [Logged l]).
Proof. reflexivity. Qed.

Lemma ret_run {A} (a : A) db : ret a db = (a, db, []).
Proof. reflexivity. Qed.

Lemma bind_value {A B} (m : M A) (f : A -> M B) db :
  value_of (bind m f db) = value_of (f (value_of (m db)) (table_of (m db))).
Proof. now rewrite bind_run. Qed.

Lemma bind_table {A B} (m : M A) (f : A -> M B) db :
  table_of (bind m f db) = table_of (f (value_of (m db)) (table_of (m db))).
Proof. now rewrite bind_run. Qed.

Lemma bind_events {A B} (m : M A) (f : A -> M B) db :
  events_of (bind m f db)
  = events_of (m db) ++ events_of (f (value_of (m db)) (table_of (m db))).
Proof. now rewrite bind_run. Qed.

Ltac triples :=
  rewrite ?value_of_triple, ?table_of_triple, ?events_of_triple.

(** Unfolds the primitive computations so that a straight-line body runs. *)
Ltac run_py :=
  unfold bind, emit, log, get_table, put_table, ret,
    value_of, table_of, events_of; simpl.

Lemma for_each_app {A} (l1 l2 : list A) body db :
  table_of (for_each (l1 ++ l2) body db)
  = table_of (for_each l2 body (table_of (for_each l1 body db))).
Proof.
  revert db. induction l1 as [|x l1 IH]; intros db; [reflexivity|].
  simpl. rewrite !bind_table. apply IH.
Qed.

Lemma for_each_app_events {A} (l1 l2 : list A) body db :
  events_of (for_each (l1 ++ l2) body db)
  = events_of (for_each l1 body db)
    ++ events_of (for_each l2 body (table_of (for_each l1 body db))).
Proof.
  revert db. induction l1 as [|x l1 IH]; intros db; [reflexivity|].
  simpl. rewrite !bind_events, bind_table, IH. now rewrite app_assoc.
Qed.

(** A loop whose body leaves the table as it is writes the events of its
    iterations, each run on that table. *)
Lemma for_each_stable {A} (l : list A) body db :
  (forall x, In x l -> table_of (body x db) = db) ->
  table_of (for_each l body db) = db /\
  events_of (for_each l body db)
  = flat_map (fun x => events_of (body x db)) l.
Proof.
  induction l as [|x l IH]; intros H; [split; reflexivity|].
  simpl. rewrite bind_table, bind_events.
  rewrite (H x (or_introl eq_refl)).
  destruct IH as [IHt IHe]; [intros y Hy; apply H; now right|].
  now rewrite IHt, IHe.
Qed.

Lemma listing_requests_app a b :
  listing_requests (a ++ b) = listing_requests a ++ listing_requests b.
Proof. apply flat_map_app. Qed.

Lemma article_requests_app a b :
  article_requests (a ++ b) = article_requests a ++ article_requests b.
Proof. apply flat_map_app. Qed.

Lemma insert_attempts_app a b :
  insert_attempts (a ++ b) = insert_attempts a ++ insert_attempts b.
Proof. apply flat_map_app. Qed.

Lemma printed_app a b : printed (a ++ b) = printed a ++ printed b.
Proof. apply flat_map_app. Qed.

(* ================================================================== *)
(** * The store *)
(* ================================================================== *)

Lemma article_exists_run id db :
  article_exists id db
  = (truthy id && has_postid db id, db,
     if truthy id then [SqlSelect id] else []).
Proof. unfold article_exists. destruct id; reflexivity. Qed.

Lemma insert_article_table w r db :
  table_of (insert_article w r db) = insert_row w db r.
Proof.
  unfold insert_article, insert_row. run_py.
  destruct (adapt_raises w r); [reflexivity|].
  destruct (has_postid db (postid r)); [reflexivity|].
  destruct (has_url db (article_url r) || store_refuses w r); reflexivity.
Qed.

Lemma insert_article_attempts w r db :
  insert_attempts (events_of (insert_article w r db)) = [r].
Proof.
  unfold insert_article. run_py.
  destruct (adapt_raises w r); [reflexivity|].
  destruct (has_postid db (postid r)); [reflexivity|].
  destruct (has_url db (article_url r) || store_refuses w r); reflexivity.
Qed.

Lemma insert_article_no_request w r db :
  article_requests (events_of (insert_article w r db)) = [] /\
  listing_requests (events_of (insert_article w r db)) = [].
Proof.
  unfold insert_article. run_py.
  destruct (adapt_raises w r); [split; reflexivity|].
  destruct (has_postid db (postid r)); [split; reflexivity|].
  destruct (has_url db (article_url r) || store_refuses w r);
    split; reflexivity.
Qed.

Lemma insert_article_prints_nothing w r db :
  printed (events_of (insert_article w r db)) = [].
Proof.
  unfold insert_article. run_py.
  destruct (adapt_raises w r); [reflexivity|].
  destruct (has_postid db (postid r)); [reflexivity|].
  destruct (has_url db (article_url r) || store_refuses w r); reflexivity.
Qed.

Lemma has_postid_app db extra id :
  has_postid (db ++ extra) id = has_postid db id || has_postid extra id.
Proof. apply existsb_app. Qed.

Lemma has_url_app db extra url :
  has_url (db ++ extra) url = has_url db url || has_url extra url.
Proof. apply existsb_app. Qed.

Lemma has_postid_false db id :
  has_postid db id = false -> ~ In id (map postid db).
Proof.
  intros H Hin. apply in_map_iff in Hin. destruct Hin as (r & <- & Hr).
  assert (E : has_postid db (postid r) = true).
  { apply existsb_exists. exists r. split; [exact Hr | apply pystr_eqb_refl]. }
  congruence.
Qed.

(** The four cases of an insert. *)
Lemma insert_row_cases w db r :
  (insert_row w db r = db /\
   (refused w r = true \/ has_postid db (postid r) = true \/
    has_url db (article_url r) = true)) \/
  (insert_row w db r = db ++ [r] /\
   refused w r = false /\ has_postid db (postid r) = false /\
   has_url db (article_url r) = false).
Proof.
  unfold insert_row, refused.
  destruct (adapt_raises w r); [left; split; [reflexivity | now left]|].
  destruct (has_postid db (postid r));
    [left; split; [reflexivity | right; now left]|].
  destruct (has_url db (article_url r));
    [left; split; [reflexivity | right; now right]|].
  destruct (store_refuses w r);
    [left; split; [reflexivity | now left] | right; repeat split].
Qed.

(** A row that is refused, or whose post id or URL is in the table, leaves
    the table as it is. *)
Lemma insert_row_same w db r :
  refused w r = true \/ has_postid db (postid r) = true \/
  has_url db (article_url r) = true ->
  insert_row w db r = db.
Proof.
  unfold insert_row, refused. intros H.
  destruct (adapt_raises w r); [reflexivity|].
  destruct (has_postid db (postid r)); [reflexivity|].
  destruct (has_url db (article_url r)); [reflexivity|].
  destruct (store_refuses w r); [reflexivity|].
  simpl in H. destruct H as [H | [H | H]]; discriminate.
Qed.

(** A row the store accepts, whose post id and URL are new, is added. *)
Lemma insert_row_added w db r :
  refused w r = false -> has_postid db (postid r) = false ->
  has_url db (article_url r) = false ->
  insert_row w db r = db ++ [r].
Proof.
  unfold insert_row, refused. intros H1 -> ->.
  apply orb_false_iff in H1. destruct H1 as [-> ->]. reflexivity.
Qed.

Lemma insert_row_grows w db r :
  exists extra, insert_row w db r = db ++ extra.
Proof.
  destruct (insert_row_cases w db r) as [[-> _] | [-> _]];
    [exists []; now rewrite app_nil_r | now exists [r]].
Qed.

(** After an insert the table holds the post id of the row or its URL,
    unless the store cannot hold the row. *)
Lemma insert_row_settles w db r :
  has_postid (insert_row w db r) (postid r) = true \/
  has_url (insert_row w db r) (article_url r) = true \/
  refused w r = true.
Proof.
  destruct (insert_row_cases w db r) as [[-> [H | [H | H]]] | [-> _]];
    [now right; right | now left | now right; left |].
  left. rewrite has_postid_app. simpl. rewrite pystr_eqb_refl.
  now rewrite orb_true_r.
Qed.

(** The [UNIQUE] constraint on [postid] is kept by an insert. *)
Lemma insert_row_unique w db r :
  NoDup (map postid db) -> NoDup (map postid (insert_row w db r)).
Proof.
  intros H.
  destruct (insert_row_cases w db r) as [[-> _] | (-> & _ & E1 & _)];
    [exact H|].
  rewrite map_app. simpl. apply NoDup_app; [exact H | | ].
  - constructor; [intros [] | constructor].
  - intros x Hx [<- | []]. now apply has_postid_false in E1.
Qed.

(* ================================================================== *)
(** * The pipeline *)
(* ================================================================== *)

Section PipelineFacts.

Variable w : world.

Lemma parse_listing_page_run p db :
  value_of (parse_listing_page w p db) = page_summaries w p /\
  table_of (parse_listing_page w p db) = db /\
  listing_requests (events_of (parse_listing_page w p db)) = [p] /\
  article_requests (events_of (parse_listing_page w p db)) = [] /\
  insert_attempts (events_of (parse_listing_page w p db)) = [] /\
  printed (events_of (parse_listing_page w p db)) = [].
Proof.
  unfold parse_listing_page, page_summaries. run_py.
  destruct (listing_response w p) as [status soup|]; simpl.
  - destruct (status =? 200)%Z; simpl; repeat split; reflexivity.
  - repeat split; reflexivity.
Qed.

Lemma parse_article_content_run url db :
  value_of (parse_article_content w url db) = fetched_detail w url /\
  table_of (parse_article_content w url db) = db /\
  listing_requests (events_of (parse_article_content w url db)) = [] /\
  article_requests (events_of (parse_article_content w url db)) = [url] /\
  insert_attempts (events_of (parse_article_content w url db)) = [] /\
  printed (events_of (parse_article_content w url db)) = [].
Proof.
  unfold parse_article_content, fetched_detail. run_py.
  destruct (article_response w url) as [status soup|]; simpl.
  - destruct (status =? 200)%Z; simpl; repeat split; reflexivity.
  - repeat split; reflexivity.
Qed.

(** What one iteration of the summary loop does: behind the gate, one
    [SELECT] and one log line; otherwise the article page is requested and
    the merged row is handed to [INSERT]. *)
Lemma process_summary_run s db :
  process_summary w s db
  = if gated db s then
      (tt, db, [SqlSelect (s_postid s);
                Logged (InfoAlreadyInDb (s_postid s) (s_article_url s))])
    else
      let r := merge w s (fetched_detail w (s_article_url s)) in
      (tt, insert_row w db r,
       (if truthy (s_postid s) then [SqlSelect (s_postid s)] else [])
       ++ events_of (parse_article_content w (s_article_url s) db)
       ++ events_of (insert_article w r db) ++ [Sleep 5]).
Proof.
  unfold process_summary, gated.
  rewrite bind_run, article_exists_run.
  triples.
  destruct (truthy (s_postid s) && has_postid db (s_postid s)) eqn:E.
  - apply andb_true_iff in E. destruct E as [-> _]. reflexivity.
  - destruct (parse_article_content_run (s_article_url s) db)
      as (Hv & Ht & _).
    rewrite bind_run, Hv, Ht, bind_run, insert_article_table.
    reflexivity.
Qed.

Lemma process_summary_gated s db :
  gated db s = true ->
  process_summary w s db
  = (tt, db, [SqlSelect (s_postid s);
              Logged (InfoAlreadyInDb (s_postid s) (s_article_url s))]).
Proof. intros H. now rewrite process_summary_run, H. Qed.

Lemma process_summary_new s db :
  gated db s = false ->
  table_of (process_summary w s db)
  = insert_row w db (merge w s (fetched_detail w (s_article_url s))) /\
  article_requests (events_of (process_summary w s db)) = [s_article_url s] /\
  insert_attempts (events_of (process_summary w s db))
  = [merge w s (fetched_detail w (s_article_url s))].
Proof.
  intros H. rewrite process_summary_run, H.
  triples.
  destruct (parse_article_content_run (s_article_url s) db)
    as (_ & _ & _ & Ha & Hi & _).
  rewrite !article_requests_app, !insert_attempts_app, Ha, Hi.
  rewrite insert_article_attempts.
  destruct (insert_article_no_request w
              (merge w s (fetched_detail w (s_article_url s))) db) as [-> _].
  destruct (truthy (s_postid s)); repeat split; reflexivity.
Qed.

Lemma process_summary_table s db :
  table_of (process_summary w s db)
  = if gated db s then db
    else insert_row w db (merge w s (fetched_detail w (s_article_url s))).
Proof. rewrite process_summary_run. now destruct (gated db s). Qed.

Lemma process_summary_quiet s db :
  listing_requests (events_of (process_summary w s db)) = [] /\
  printed (events_of (process_summary w s db)) = [].
Proof.
  rewrite process_summary_run.
  destruct (gated db s); [split; reflexivity|].
  rewrite events_of_triple.
  destruct (parse_article_content_run (s_article_url s) db)
    as (_ & _ & Hl & _ & _ & Hp).
  rewrite !listing_requests_app, !printed_app, Hl, Hp.
  destruct (insert_article_no_request w
              (merge w s (fetched_detail w (s_article_url s))) db) as [_ ->].
  rewrite insert_article_prints_nothing.
  destruct (truthy (s_postid s)); split; reflexivity.
Qed.

Lemma for_each_summaries_quiet l db :
  listing_requests (events_of (for_each l (process_summary w) db)) = [] /\
  printed (events_of (for_each l (process_summary w) db)) = [].
Proof.
  revert db. induction l as [|s l IH]; intros db; [split; reflexivity|].
  simpl. rewrite bind_events, listing_requests_app, printed_app.
  destruct (process_summary_quiet s db) as [-> ->].
  apply IH.
Qed.

Lemma scrape_page_run total p db :
  value_of (scrape_page w total p db)
  = (total + Z.of_nat (List.length (page_summaries w p)))%Z /\
  table_of (scrape_page w total p db)
  = table_of (for_each (page_summaries w p) (process_summary w) db) /\
  listing_requests (events_of (scrape_page w total p db)) = [p] /\
  printed (events_of (scrape_page w total p db)) = [] /\
  article_requests (events_of (scrape_page w total p db))
  = article_requests
      (events_of (for_each (page_summaries w p) (process_summary w) db)) /\
  insert_attempts (events_of (scrape_page w total p db))
  = insert_attempts
      (events_of (for_each (page_summaries w p) (process_summary w) db)).
Proof.
  unfold scrape_page.
  destruct (parse_listing_page_run p db) as (Hv & Ht & Hl & Ha & Hi & Hp).
  rewrite bind_run, log_run.
  triples.
  rewrite bind_run, Hv, Ht.
  triples.
  rewrite !listing_requests_app, !printed_app, !article_requests_app,
    !insert_attempts_app, Hl, Hp, Ha, Hi.
  destruct (page_summaries w p) as [|s ss] eqn:E.
  - rewrite bind_run, log_run, ret_run.
    triples.
    repeat split; try reflexivity. simpl. lia.
  - rewrite bind_run, bind_run, emit_run, ret_run.
    triples.
    rewrite !listing_requests_app, !printed_app, !article_requests_app,
      !insert_attempts_app.
    destruct (for_each_summaries_quiet (s :: ss) db) as [-> ->].
    simpl. rewrite !app_nil_r.
    repeat split; reflexivity.
Qed.

Lemma scrape_pages_run ps total db :
  value_of (for_fold ps total (scrape_page w) db)
  = (total + count_summaries w ps)%Z /\
  table_of (for_fold ps total (scrape_page w) db)
  = table_of (for_each (flat_map (page_summaries w) ps)
                       (process_summary w) db) /\
  listing_requests (events_of (for_fold ps total (scrape_page w) db)) = ps /\
  printed (events_of (for_fold ps total (scrape_page w) db)) = [] /\
  article_requests (events_of (for_fold ps total (scrape_page w) db))
  = article_requests
      (events_of (for_each (flat_map (page_summaries w) ps)
                           (process_summary w) db)) /\
  insert_attempts (events_of (for_fold ps total (scrape_page w) db))
  = insert_attempts
      (events_of (for_each (flat_map (page_summaries w) ps)
                           (process_summary w) db)).
Proof.
  revert total db. induction ps as [|p ps IH]; intros total db.
  - simpl. rewrite ret_run.
    triples.
    repeat split; try reflexivity. lia.
  - cbn [for_fold flat_map count_summaries fold_right].
    rewrite bind_run.
    triples.
    destruct (scrape_page_run total p db) as (Hv & Ht & Hl & Hp & Ha & Hi).
    rewrite Hv, Ht, listing_requests_app, printed_app, article_requests_app,
      insert_attempts_app, Hl, Hp, Ha, Hi.
    destruct (IH (total + Z.of_nat (List.length (page_summaries w p)))%Z
                 (table_of (for_each (page_summaries w p)
                                     (process_summary w) db)))
      as (IHv & IHt & IHl & IHp & IHa & IHi).
    rewrite IHv, IHt, IHl, IHp, IHa, IHi, for_each_app, for_each_app_events.
    rewrite article_requests_app, insert_attempts_app.
    fold (count_summaries w ps).
    repeat split; try reflexivity. lia.
Qed.

(** A whole run: nothing is returned; the table, the article pages
    requested and the rows handed to [INSERT] are those of the summary loop
    over the summaries seen on the walk; the listing pages requested are
    those of the walk; the total is logged and printed last. *)
Lemma scrape_hespress_run start_page end_page db :
  value_of (scrape_hespress w start_page end_page db) = PyNone /\
  table_of (scrape_hespress w start_page end_page db)
  = table_of (for_each (summaries_seen w start_page end_page)
                       (process_summary w) db) /\
  listing_requests (events_of (scrape_hespress w start_page end_page db))
  = pages start_page end_page /\
  printed (events_of (scrape_hespress w start_page end_page db))
  = [count_summaries w (pages start_page end_page)] /\
  article_requests (events_of (scrape_hespress w start_page end_page db))
  = article_requests
      (events_of (for_each (summaries_seen w start_page end_page)
                           (process_summary w) db)) /\
  insert_attempts (events_of (scrape_hespress w start_page end_page db))
  = insert_attempts
      (events_of (for_each (summaries_seen w start_page end_page)
                           (process_summary w) db)) /\
  exists before,
    events_of (scrape_hespress w start_page end_page db)
    = before
      ++ [Logged (InfoTotal (count_summaries w (pages start_page end_page)));
          Printed (count_summaries w (pages start_page end_page))].
Proof.
  unfold scrape_hespress, summaries_seen.
  destruct (scrape_pages_run (pages start_page end_page) 0%Z db)
    as (Hv & Ht & Hl & Hp & Ha & Hi).
  assert (Hc : create_table db
               = (tt, db, [SqlCreateTable; Logged InfoTableEnsured]))
    by reflexivity.
  rewrite bind_run, Hc.
  triples.
  rewrite bind_run, Hv, Ht.
  triples.
  rewrite bind_run, log_run, bind_run, emit_run, ret_run.
  triples.
  split; [reflexivity|]. split; [reflexivity|].
  rewrite !listing_requests_app, !printed_app, !article_requests_app,
    !insert_attempts_app, Hl, Hp, Ha, Hi.
  simpl. rewrite !app_nil_r.
  repeat split; try reflexivity.
  exists (SqlCreateTable :: Logged InfoTableEnsured
          :: events_of (for_fold (pages start_page end_page) 0%Z
                                 (scrape_page w) db)).
  reflexivity.
Qed.

Lemma count_summaries_length ps :
  count_summaries w ps
  = Z.of_nat (List.length (flat_map (page_summaries w) ps)).
Proof.
  induction ps as [|p ps IH]; [reflexivity|].
  cbn [count_summaries fold_right flat_map].
  fold (count_summaries w ps). rewrite IH, length_app. lia.
Qed.

(* ------------------------------------------------------------------ *)
(** ** Settled summaries *)

Lemma settled_grows db extra s :
  settled w db s -> settled w (db ++ extra) s.
Proof.
  unfold settled. rewrite has_postid_app, has_url_app.
  intros [-> | [-> | H]];
    [left | right; left | right; right]; trivial.
Qed.

Lemma process_summary_grows s db :
  exists extra, table_of (process_summary w s db) = db ++ extra.
Proof.
  rewrite process_summary_table.
  destruct (gated db s); [exists []; now rewrite app_nil_r|].
  apply insert_row_grows.
Qed.

Lemma process_summary_settles s db :
  settled w (table_of (process_summary w s db)) s.
Proof.
  rewrite process_summary_table. unfold settled.
  destruct (gated db s) eqn:E.
  - left. unfold gated in E. apply andb_true_iff in E. tauto.
  - exact (insert_row_settles w db (row_of w s)).
Qed.

Lemma process_summary_settled s db :
  settled w db s -> table_of (process_summary w s db) = db.
Proof.
  intros H. rewrite process_summary_table.
  destruct (gated db s); [reflexivity|].
  apply insert_row_same. unfold settled in H.
  cbn [postid article_url merge]. tauto.
Qed.

Lemma for_each_summaries_grow l db :
  (exists extra,
      table_of (for_each l (process_summary w) db) = db ++ extra) /\
  (forall s, In s l ->
             settled w (table_of (for_each l (process_summary w) db)) s).
Proof.
  revert db. induction l as [|s l IH]; intros db.
  - split; [exists []; now rewrite app_nil_r | intros s []].
  - simpl. rewrite bind_table.
    destruct (process_summary_grows s db) as (e1 & E1).
    destruct (IH (table_of (process_summary w s db))) as ((e2 & E2) & Hall).
    split.
    + exists (e1 ++ e2). now rewrite E2, E1, app_assoc.
    + intros s' [<- | Hin]; [|now apply Hall].
      rewrite E2. apply settled_grows, process_summary_settles.
Qed.

Lemma for_each_summaries_settled l db :
  (forall s, In s l -> settled w db s) ->
  table_of (for_each l (process_summary w) db) = db /\
  events_of (for_each l (process_summary w) db)
  = flat_map (fun s => events_of (process_summary w s db)) l.
Proof.
  intros H. apply for_each_stable.
  intros s Hs. now apply process_summary_settled, H.
Qed.

(** The [UNIQUE] constraint on [postid] holds after the summary loop when
    it held before. *)
Lemma for_each_summaries_unique l db :
  NoDup (map postid db) ->
  NoDup (map postid (table_of (for_each l (process_summary w) db))).
Proof.
  revert db. induction l as [|s l IH]; intros db H; [exact H|].
  simpl. rewrite bind_table. apply IH.
  rewrite process_summary_table.
  destruct (gated db s); [exact H | now apply insert_row_unique].
Qed.

Lemma summaries_seen_postid start_page end_page s :
  In s (summaries_seen w start_page end_page) ->
  s_postid s = extract_post_id_from_url (s_article_url s).
Proof.
  unfold summaries_seen. rewrite in_flat_map. intros (p & _ & H).
  unfold page_summaries in H.
  destruct (listing_response w p) as [status soup|]; [|contradiction].
  destruct (status =? 200)%Z; [|contradiction].
  now apply listing_summaries_postid in H.
Qed.

(** The article pages a summary loop requests when every summary is
    settled: those of the summaries that are not behind the gate. *)
Lemma article_requests_settled l db :
  (forall s, In s l -> settled w db s) ->
  article_requests (events_of (for_each l (process_summary w) db))
  = map s_article_url (filter (fun s => negb (gated db s)) l).
Proof.
  intros H. destruct (for_each_summaries_settled l db H) as [_ ->].
  clear H. induction l as [|s l IH]; [reflexivity|].
  cbn [flat_map filter]. rewrite article_requests_app, IH.
  destruct (gated db s) eqn:E.
  - now rewrite process_summary_gated.
  - destruct (process_summary_new s db E) as (_ & -> & _). reflexivity.
Qed.

End PipelineFacts.

(* ================================================================== *)
(** * The walk over the listing pages *)
(* ================================================================== *)

Local Open Scope Z_scope.

Lemma map_seq_walk start step a n :
  map (fun i => start + Z.of_nat i * step) (seq a n)
  = walk (start + Z.of_nat a * step) step n.
Proof.
  revert a. induction n as [|n IH]; intros a; [reflexivity|].
  simpl. f_equal. rewrite IH. f_equal. lia.
Qed.

Lemma pages_walk start_page end_page :
  pages start_page end_page = closed_interval_walk start_page end_page.
Proof.
  unfold pages, closed_interval_walk, py_range.
  destruct (start_page >? end_page); simpl;
    rewrite map_seq_walk, Z.div_1_r; simpl;
    f_equal; lia.
Qed.

Lemma in_walk_up from n p :
  In p (walk from 1 n) <-> from <= p < from + Z.of_nat n.
Proof.
  revert from. induction n as [|n IH]; intros from; simpl.
  - lia.
  - rewrite IH. lia.
Qed.

Lemma in_walk_down from n p :
  In p (walk from (-1) n) <-> from - Z.of_nat n < p <= from.
Proof.
  revert from. induction n as [|n IH]; intros from; simpl.
  - lia.
  - rewrite IH. lia.
Qed.

Lemma walk_up_sorted from n : StronglySorted Z.lt (walk from 1 n).
Proof.
  revert from. induction n as [|n IH]; intros from; simpl; constructor.
  - apply IH.
  - apply Forall_forall. intros x Hx. apply in_walk_up in Hx. lia.
Qed.

Lemma walk_down_sorted from n : StronglySorted Z.gt (walk from (-1) n).
Proof.
  revert from. induction n as [|n IH]; intros from; simpl; constructor.
  - apply IH.
  - apply Forall_forall. intros x Hx. apply in_walk_down in Hx. lia.
Qed.

Lemma walk_last from step n d :
  last (walk from step (S n)) d = from + Z.of_nat n * step.
Proof.
  revert from. induction n as [|n IH]; intros from.
  - simpl. lia.
  - change (walk from step (S (S n)))
      with (from :: walk (from + step) step (S n)).
    change (last (from :: walk (from + step) step (S n)) d)
      with (last (walk (from + step) step (S n)) d).
    rewrite IH. lia.
Qed.

Lemma walk_nodup from step n : step <> 0 -> NoDup (walk from step n).
Proof.
  intros Hstep.
  assert (Hin : forall k a p, In p (walk a step k) ->
                  exists i, (0 <= i < Z.of_nat k) /\ p = a + i * step).
  { induction k as [|k IH]; intros a p; simpl; [intros []|].
    intros [<- | H].
    - exists 0. lia.
    - destruct (IH _ _ H) as (i & Hi & ->). exists (i + 1). lia. }
  revert from. induction n as [|n IH]; intros from; simpl; constructor.
  - intros H. destruct (Hin _ _ _ H) as (i & Hi & E). nia.
  - apply IH.
Qed.

(** C6: a run requests the listing pages of the closed interval between
    [start_page] and [end_page], each once, both ends included, from
    [start_page] to [end_page]: downwards when [start_page] is the larger,
    upwards otherwise, the one page when they are equal. *)
Theorem pages_visited (w : world) (start_page end_page : Z) (db : table) :
  listing_requests (events_of (scrape_hespress w start_page end_page db))
  = closed_interval_walk start_page end_page /\
  (forall p, In p (closed_interval_walk start_page end_page) <->
             Z.min start_page end_page <= p <= Z.max start_page end_page) /\
  NoDup (closed_interval_walk start_page end_page) /\
  hd_error (closed_interval_walk start_page end_page) = Some start_page /\
  last (closed_interval_walk start_page end_page) start_page = end_page /\
  (start_page > end_page ->
   StronglySorted Z.gt (closed_interval_walk start_page end_page)) /\
  (start_page <= end_page ->
   StronglySorted Z.lt (closed_interval_walk start_page end_page)) /\
  (start_page = end_page ->
   closed_interval_walk start_page end_page = [start_page]).
Proof.
  split.
  { destruct (scrape_hespress_run w start_page end_page db)
      as (_ & _ & -> & _). apply pages_walk. }
  unfold closed_interval_walk.
  destruct (start_page >? end_page) eqn:E.
  - apply Z.gtb_lt in E.
    assert (En : Z.to_nat (start_page - end_page + 1)
                 = S (Z.to_nat (start_page - end_page))) by lia.
    split; [intros p; rewrite in_walk_down; lia|].
    split; [apply walk_nodup; lia|].
    split; [now rewrite En|].
    split; [rewrite En, walk_last; lia|].
    split; [intros _; apply walk_down_sorted|].
    split; intros; lia.
  - rewrite Z.gtb_ltb in E. apply Z.ltb_ge in E.
    assert (En : Z.to_nat (end_page - start_page + 1)
                 = S (Z.to_nat (end_page - start_page))) by lia.
    split; [intros p; rewrite in_walk_up; lia|].
    split; [apply walk_nodup; lia|].
    split; [now rewrite En|].
    split; [rewrite En, walk_last; lia|].
    split; [intros; lia|].
    split; [intros _; apply walk_up_sorted|].
    intros ->. now replace (end_page - end_page + 1) with 1 by lia.
Qed.

Local Close Scope Z_scope.

(* ================================================================== *)
(** * The total of a run *)
(* ================================================================== *)

(** C2, counterexample: on a site whose page 1 lists three articles, the
    run over page 1 sees three summaries and returns [None]. *)
Lemma scrape_hespress_returns_none :
  total_summaries_seen site_a_missing 1 1 = 3%Z /\
  value_of (scrape_hespress site_a_missing 1 1 []) = PyNone /\
  ~ run_returns_total.
Proof.
  split; [reflexivity|]. split; [reflexivity|].
  intros H. specialize (H site_a_missing 1%Z 1%Z []).
  vm_compute in H. discriminate.
Qed.

(** C2, amended: a run returns nothing; the last thing it does is to log
    and print the number of summaries seen on all the listing pages of the
    walk.  The number does not depend on the table: a summary that the
    dedup gate skips is counted like any other. *)
Theorem scrape_hespress_reports_total
  (w : world) (start_page end_page : Z) (db : table) :
  value_of (scrape_hespress w start_page end_page db) = PyNone /\
  printed (events_of (scrape_hespress w start_page end_page db))
  = [total_summaries_seen w start_page end_page] /\
  (exists before,
      events_of (scrape_hespress w start_page end_page db)
      = before
        ++ [Logged (InfoTotal (total_summaries_seen w start_page end_page));
            Printed (total_summaries_seen w start_page end_page)]) /\
  total_summaries_seen w start_page end_page
  = fold_right
      (fun p n => (Z.of_nat (List.length (page_summaries w p)) + n)%Z) 0%Z
      (closed_interval_walk start_page end_page).
Proof.
  destruct (scrape_hespress_run w start_page end_page db)
    as (Hv & _ & _ & Hp & _ & _ & Hlast).
  unfold total_summaries_seen, summaries_seen.
  rewrite <- count_summaries_length.
  repeat split; try assumption.
  unfold count_summaries. now rewrite pages_walk.
Qed.

(* ================================================================== *)
(** * Idempotence *)
(* ================================================================== *)

(** C3: a second run over the same range on the same site leaves the table
    as the first run left it.  In that second run a summary whose post id
    is in the table (the gate holds for non-empty post ids) costs one
    [SELECT] and no request, so the article pages requested are only those
    of the summaries not behind the gate; an [INSERT] of a row whose post
    id is in the table leaves the table as it is; and so does every
    [INSERT] of the second run: the post id of its row or its URL is in
    the table, or the store cannot hold the row (and did not in the first
    run either). *)
Theorem scrape_hespress_idempotent
  (w : world) (start_page end_page : Z) (db : table) :
  table_of (scrape_hespress w start_page end_page
              (table_of (scrape_hespress w start_page end_page db)))
  = table_of (scrape_hespress w start_page end_page db) /\
  article_requests
    (events_of (scrape_hespress w start_page end_page
                  (table_of (scrape_hespress w start_page end_page db))))
  = map s_article_url
      (filter (fun s =>
                 negb (gated (table_of
                                (scrape_hespress w start_page end_page db)) s))
              (summaries_seen w start_page end_page)) /\
  (forall s db1,
      s_postid s <> [] -> has_postid db1 (s_postid s) = true ->
      process_summary w s db1
      = (tt, db1, [SqlSelect (s_postid s);
                   Logged (InfoAlreadyInDb (s_postid s) (s_article_url s))])) /\
  (forall r db1,
      has_postid db1 (postid r) = true ->
      table_of (insert_article w r db1) = db1) /\
  (forall r,
      In r (insert_attempts
              (events_of
                 (scrape_hespress w start_page end_page
                    (table_of (scrape_hespress w start_page end_page db))))) ->
      table_of (insert_article w r
                  (table_of (scrape_hespress w start_page end_page db)))
      = table_of (scrape_hespress w start_page end_page db) /\
      (has_postid (table_of (scrape_hespress w start_page end_page db))
                  (postid r) = true \/
       has_url (table_of (scrape_hespress w start_page end_page db))
               (article_url r) = true \/
       refused w r = true)).
Proof.
  destruct (scrape_hespress_run w start_page end_page db)
    as (_ & Ht & _).
  set (db1 := table_of (scrape_hespress w start_page end_page db)) in *.
  destruct (scrape_hespress_run w start_page end_page db1)
    as (_ & Ht2 & _ & _ & Ha2 & Hi2 & _).
  assert (Hsettled : forall s, In s (summaries_seen w start_page end_page) ->
                               settled w db1 s).
  { rewrite Ht. apply for_each_summaries_grow. }
  split.
  { rewrite Ht2. now apply for_each_summaries_settled. }
  split.
  { rewrite Ha2. now apply article_requests_settled. }
  split.
  { intros s db' Hne Hin. apply process_summary_gated.
    unfold gated. rewrite Hin. now destruct (s_postid s). }
  split.
  { intros r db' Hin. rewrite insert_article_table.
    apply insert_row_same. tauto. }
  intros r Hr. rewrite Hi2 in Hr.
  destruct (for_each_summaries_settled w _ db1 Hsettled) as [_ E].
  rewrite E in Hr. clear E.
  unfold insert_attempts in Hr. rewrite flat_map_concat_map in Hr.
  apply in_concat in Hr. destruct Hr as (evs & Hevs & Hr).
  apply in_map_iff in Hevs. destruct Hevs as (e & <- & He).
  apply in_flat_map in He. destruct He as (s & Hs & He).
  rewrite process_summary_run in He.
  destruct (gated db1 s) eqn:G.
  - simpl in He. destruct He as [<- | [<- | []]]; contradiction.
  - assert (Hr' : In r (insert_attempts
                          (events_of (process_summary w s db1)))).
    { rewrite process_summary_run, G. apply in_flat_map. now exists e. }
    destruct (process_summary_new w s db1 G) as (_ & _ & Hi).
    rewrite Hi in Hr'. destruct Hr' as [<- | []].
    specialize (Hsettled s Hs). unfold settled, row_of in Hsettled.
    split; [|exact Hsettled].
    rewrite insert_article_table. apply insert_row_same.
    cbn [postid article_url merge]. tauto.
Qed.

(* ================================================================== *)
(** * Articles without a post id *)
(* ================================================================== *)

Lemma absent_postid_rows db id :
  ~ In id (map postid db) ->
  filter (fun r => pystr_eqb (postid r) id) db = [].
Proof.
  induction db as [|r db IH]; intros H; [reflexivity|]. simpl.
  destruct (pystr_eqb (postid r) id) eqn:E.
  - apply pystr_eqb_eq in E. exfalso. apply H. now left.
  - apply IH. intros Hin. apply H. now right.
Qed.

Lemma unique_postid_rows db id :
  NoDup (map postid db) ->
  List.length (filter (fun r => pystr_eqb (postid r) id) db) <= 1.
Proof.
  induction db as [|r db IH]; intros H; simpl; [lia|].
  inversion H as [|x l Hnotin Hrest]; subst.
  destruct (pystr_eqb (postid r) id) eqn:E; [|now apply IH].
  apply pystr_eqb_eq in E. subst id.
  rewrite (absent_postid_rows _ _ Hnotin). simpl. lia.
Qed.

(** C9: an article whose URL does not match the pattern has the empty
    string as post id.  For the empty post id the existence check answers
    [False] without a query, so the summary is never skipped: its page is
    requested and a row with the empty post id is handed to [INSERT].  The
    post ids of the table stay distinct, so the table never holds more than
    one row with the empty post id, and once it holds one, every later
    summary with the empty post id leaves the table as it is. *)
Theorem empty_postid_articles (w : world) :
  (forall doc s,
      In s (listing_summaries doc) ->
      (forall ds, ~ trailing_id_nl (s_article_url s) ds) ->
      s_postid s = []) /\
  (forall db, article_exists [] db = (false, db, [])) /\
  (forall s db,
      s_postid s = [] ->
      gated db s = false /\
      article_requests (events_of (process_summary w s db))
      = [s_article_url s] /\
      (exists r,
          insert_attempts (events_of (process_summary w s db)) = [r] /\
          postid r = [] /\ article_url r = s_article_url s)) /\
  (forall start_page end_page db,
      NoDup (map postid db) ->
      NoDup (map postid (table_of (scrape_hespress w start_page end_page db)))
      /\
      List.length
        (empty_postid_rows
           (table_of (scrape_hespress w start_page end_page db))) <= 1) /\
  (forall s db,
      s_postid s = [] ->
      has_postid db [] = true ->
      table_of (process_summary w s db) = db).
Proof.
  split.
  { intros doc s Hin Hno. rewrite (listing_summaries_postid _ _ Hin).
    destruct (extract_post_id_cases (s_article_url s)) as [H | [H _]];
      [now apply Hno in H | exact H]. }
  split; [reflexivity|].
  split.
  { intros s db Hs.
    assert (G : gated db s = false) by (unfold gated; now rewrite Hs).
    destruct (process_summary_new w s db G) as (_ & Ha & Hi).
    split; [exact G|]. split; [exact Ha|].
    eexists. split; [exact Hi|]. split; [exact Hs | reflexivity]. }
  split.
  { intros start_page end_page db H.
    destruct (scrape_hespress_run w start_page end_page db) as (_ & -> & _).
    assert (H' := for_each_summaries_unique w
                    (summaries_seen w start_page end_page) db H).
    split; [exact H' | now apply unique_postid_rows]. }
  intros s db Hs Hdb. apply process_summary_settled. left. now rewrite Hs.
Qed.

(** C9 on the site whose article [c] has no post id: after two runs from
    the empty table the post ids are distinct and at most one row has the
    empty post id. *)
Lemma empty_postid_articles_witness :
  NoDup (map postid (@nil article_row)) /\
  NoDup (map postid
           (table_of (scrape_hespress site_a_back 1 1
              (table_of (scrape_hespress site_a_back 1 1 []))))) /\
  List.length
    (empty_postid_rows
       (table_of (scrape_hespress site_a_back 1 1
          (table_of (scrape_hespress site_a_back 1 1 [])))))
  <= 1.
Proof.
  split; [constructor|].
  destruct (empty_postid_articles site_a_back) as (_ & _ & _ & H & _).
  apply H. apply H. constructor.
Defined.

(* ================================================================== *)
(** * The date text of a stored row *)
(* ================================================================== *)

(** C7: for a summary that is not behind the gate and whose article page
    is fetched and shows a non-empty date text, the row handed to the store
    carries the date text of the article page, whatever the listing page
    gave (so also when it gave a non-empty one).  The step adds no other
    row to the table: it leaves the table as it is or adds that row, and
    it adds it when neither its post id nor its URL is in the table and
    the store can hold it. *)
Theorem detail_date_text_wins
  (w : world) (s : summary) (db : table) (soup : article_page)
  (detail_date listing_date : pystr) :
  gated db s = false ->
  article_response w (s_article_url s) = Response 200 soup ->
  page_date_post soup = Some detail_date ->
  detail_date <> [] ->
  s_date_text_ar s = Some listing_date ->
  listing_date <> [] ->
  exists r,
    insert_attempts (events_of (process_summary w s db)) = [r] /\
    date_text_ar r = Some detail_date /\
    (table_of (process_summary w s db) = db \/
     table_of (process_summary w s db) = db ++ [r]) /\
    (has_postid db (s_postid s) = false ->
     has_url db (s_article_url s) = false ->
     refused w r = false ->
     table_of (process_summary w s db) = db ++ [r]).
Proof.
  intros G Hresp Hdate Hne _ _.
  destruct (process_summary_new w s db G) as (Ht & _ & Hi).
  exists (merge w s (fetched_detail w (s_article_url s))).
  split; [exact Hi|].
  split.
  { unfold fetched_detail. rewrite Hresp. simpl.
    unfold article_detail. simpl. rewrite Hdate.
    unfold py_or. simpl. now destruct detail_date. }
  split.
  { rewrite Ht.
    destruct (insert_row_cases w db
                (merge w s (fetched_detail w (s_article_url s))))
      as [[-> _] | [-> _]]; [now left | now right]. }
  intros H1 H2 H3. rewrite Ht. now apply insert_row_added.
Qed.

(** C7 on the article [b]: the listing page says "13 ماي 2024", the article
    page says "15 يوليوز 2024", and the row stored says the latter. *)
Lemma detail_date_text_wins_witness :
  listing_summaries [card_b] = [summary_b] /\
  exists r,
    insert_attempts (events_of (process_summary site_a_back summary_b []))
    = [r] /\
    date_text_ar r = Some (u "15 يوليوز 2024") /\
    (table_of (process_summary site_a_back summary_b []) = [] \/
     table_of (process_summary site_a_back summary_b []) = [] ++ [r]) /\
    (has_postid [] (s_postid summary_b) = false ->
     has_url [] (s_article_url summary_b) = false ->
     refused site_a_back r = false ->
     table_of (process_summary site_a_back summary_b []) = [] ++ [r]).
Proof.
  split; [reflexivity|].
  apply (detail_date_text_wins site_a_back summary_b []
           (page_of (u "text") (u "15 يوليوز 2024"))
           (u "15 يوليوز 2024") (u "13 ماي 2024")).
  - reflexivity.
  - reflexivity.
  - reflexivity.
  - discriminate.
  - reflexivity.
  - discriminate.
Defined.

(* ================================================================== *)
(** * An article page that cannot be fetched *)
(* ================================================================== *)

(** When the article page of a summary that is not behind the gate cannot
    be fetched, [parse_article_content] returns the empty dict and the loop
    goes on to build and insert a row from the summary alone. *)
Lemma unfetched_article_is_stored (w : world) (s : summary) (db : table) :
  gated db s = false ->
  fetched_detail w (s_article_url s) = None ->
  has_postid db (s_postid s) = false ->
  has_url db (s_article_url s) = false ->
  refused w (row_of w s) = false ->
  table_of (process_summary w s db)
  = db ++ [ {| postid := s_postid s;
               article_url := s_article_url s;
               category := s_category s;
               title := s_title s;
               date_text_ar := py_or None (s_date_text_ar s);
               date := parse_arabic_date w (py_or None (s_date_text_ar s));
               author := [];
               content := [];
               featured_image := [];
               tags := [] |} ].
Proof.
  intros G Hd H1 H2 H3.
  destruct (process_summary_new w s db G) as (-> & _).
  unfold row_of in H3. rewrite (insert_row_added w db _ H3 H1 H2).
  now rewrite Hd.
Qed.

(** C1, the code at the failing input: on the site whose article [a]
    answers 404, a run over page 1 from the empty table logs that it is
    skipping [a], and then stores a row for [a] with no author and no
    content; the articles after it are requested and stored.  The row
    stays: when the page of [a] answers 200 again, a later run finds the
    post id in the table and skips the article. *)
Theorem missing_article_page_is_stored :
  skipping_warnings (events_of (scrape_hespress site_a_missing 1 1 []))
  = [(url_a, 404%Z)] /\
  article_requests (events_of (scrape_hespress site_a_missing 1 1 []))
  = [url_a; url_b; url_c] /\
  insert_attempts (events_of (scrape_hespress site_a_missing 1 1 []))
  = [row_a_empty; row_b; row_c] /\
  table_of (scrape_hespress site_a_missing 1 1 [])
  = [row_a_empty; row_b; row_c] /\
  article_requests
    (events_of (scrape_hespress site_a_back 1 1 [row_a_empty; row_b; row_c]))
  = [url_c] /\
  table_of (scrape_hespress site_a_back 1 1 [row_a_empty; row_b; row_c])
  = [row_a_empty; row_b; row_c].
Proof. repeat split; vm_compute; reflexivity. Qed.

(** C8 on a page with the three cards [a], [b], [c] and a card without a
    link between them. *)
Lemma listing_summaries_spec_witness :
  List.length (listing_summaries [card_a; card_bare; card_b; card_c]) = 3 /\
  map s_article_url (listing_summaries [card_a; card_bare; card_b; card_c])
  = [url_a; url_b; url_c].
Proof.
  destruct listing_summaries_spec as (_ & Hurls & Hlen & _).
  split.
  - rewrite Hlen. reflexivity.
  - rewrite Hurls. reflexivity.
Defined.

(* ================================================================== *)
(** * Stripped strings *)
(* ================================================================== *)

Lemma lstrip_head s c t : lstrip s = c :: t -> isspace c = false.
Proof.
  induction s as [|a s IH]; simpl; [discriminate|].
  destruct (isspace a) eqn:E; [exact IH|].
  intros H. injection H as <- _. exact E.
Qed.

Lemma lstrip_fixed c t : isspace c = false -> lstrip (c :: t) = c :: t.
Proof. intros H. simpl. now rewrite H. Qed.

Lemma lstrip_snoc a c :
  isspace c = false -> lstrip (a ++ [c]) = lstrip a ++ [c].
Proof.
  intros H. induction a as [|b a IH]; simpl.
  - now rewrite H.
  - destruct (isspace b); [exact IH | reflexivity].
Qed.

Lemma rstrip_cons c t : isspace c = false -> rstrip (c :: t) = c :: rstrip t.
Proof.
  intros H. unfold rstrip. simpl.
  rewrite (lstrip_snoc _ _ H), rev_app_distr. reflexivity.
Qed.

Lemma rstrip_last t : rstrip t <> [] -> isspace (last_char (rstrip t)) = false.
Proof.
  unfold rstrip, last_char. destruct (lstrip (rev t)) as [|d r] eqn:E.
  - intros H. now elim H.
  - intros _. simpl. rewrite last_last. exact (lstrip_head _ _ _ E).
Qed.

Lemma rstrip_fixed s :
  s <> [] -> isspace (last_char s) = false -> rstrip s = s.
Proof.
  intros Hne H. unfold rstrip, last_char in *.
  destruct (exists_last Hne) as (a & d & ->).
  rewrite last_last in H. rewrite rev_app_distr. simpl.
  rewrite H. simpl. now rewrite rev_involutive.
Qed.

(** A stripped string is empty, or starts and ends with characters that
    are not spaces. *)
Lemma strip_ends s :
  strip s = [] \/
  (exists c t, strip s = c :: t /\ isspace c = false) /\
  isspace (last_char (strip s)) = false.
Proof.
  unfold strip. destruct (lstrip s) as [|c t] eqn:E; [now left|].
  right. assert (Hc := lstrip_head _ _ _ E).
  split.
  - exists c, (rstrip t). split; [now apply rstrip_cons | exact Hc].
  - apply rstrip_last. rewrite (rstrip_cons _ _ Hc). discriminate.
Qed.

Lemma strip_strip s : strip (strip s) = strip s.
Proof.
  destruct (strip_ends s) as [E | [(c & t & E & Hc) Hlast]].
  - now rewrite E.
  - unfold strip at 1. rewrite E, (lstrip_fixed _ _ Hc), <- E.
    apply rstrip_fixed; [rewrite E; discriminate | exact Hlast].
Qed.

(* ================================================================== *)
(** * Post ids, continued *)
(* ================================================================== *)

Lemma trailing_id_no_newline url ds :
  last_char url <> newline -> trailing_id_nl url ds -> trailing_id url ds.
Proof.
  intros Hlast (Hne & Hall & pre & nl & [-> | ->] & E).
  - repeat split; try assumption. exists pre. now rewrite app_nil_r in E.
  - exfalso. apply Hlast. unfold last_char. rewrite E.
    replace (pre ++ [hyphen] ++ ds ++ dot_html ++ [newline])
      with ((pre ++ [hyphen] ++ ds) ++ dot_html ++ [newline])
      by (now rewrite <- !app_assoc).
    apply last_dot_html_nl.
Qed.

(** X12: the post id of any URL is made of decimal digits only, and when
    it is not empty it stands in the URL between a hyphen and [.html], so
    the URL is at least six characters longer than the post id. *)
Theorem extract_post_id_digits (url : pystr) :
  forallb is_decimal (extract_post_id_from_url url) = true /\
  (extract_post_id_from_url url <> [] ->
   contains ([hyphen] ++ extract_post_id_from_url url ++ dot_html) url = true
   /\ List.length (extract_post_id_from_url url) + 6 <= List.length url).
Proof.
  destruct (extract_post_id_cases url) as [(Hne & Hall & pre & nl & Hnl & E)
                                          | [E _]].
  - split; [exact Hall|]. intros _. split.
    + rewrite E at 2.
      replace (pre ++ [hyphen] ++ extract_post_id_from_url url
               ++ dot_html ++ nl)
        with (pre ++ ([hyphen] ++ extract_post_id_from_url url ++ dot_html)
              ++ nl)
        by (now rewrite <- !app_assoc).
      apply contains_app.
    + rewrite E at 2. rewrite !length_app. simpl. lia.
  - rewrite E. split; [reflexivity | congruence].
Qed.

(* ================================================================== *)
(** * The summaries of a listing page, continued *)
(* ================================================================== *)

Lemma card_summary_fields c s :
  card_summary c = Some s ->
  exists a,
    card_link c = Some a /\
    s_article_url s = strip (attr_or_empty (a_href a)) /\
    s_article_url s <> [] /\
    s_title s = strip (attr_or_empty (a_title a)) /\
    s_category s = card_cat c /\
    s_date_text_ar s = card_time c /\
    s_postid s = extract_post_id_from_url (s_article_url s).
Proof.
  unfold card_summary, card_url.
  destruct (card_link c) as [a|]; [|discriminate].
  destruct (strip (attr_or_empty (a_href a))) as [|x url] eqn:E;
    [simpl; discriminate|].
  simpl. intros H. injection H as <-. exists a. simpl. rewrite E.
  repeat split; try reflexivity. discriminate.
Qed.

Lemma in_listing_summaries doc s :
  In s (listing_summaries doc) <->
  exists c, In c doc /\ card_summary c = Some s.
Proof.
  rewrite listing_summaries_extract. unfold extract_summaries.
  rewrite in_flat_map. split; intros (c & Hc & H); exists c; split;
    try assumption.
  - destruct (card_summary c); [|contradiction].
    destruct H as [-> | []]. reflexivity.
  - rewrite H. now left.
Qed.

(** X6: every summary of a listing page has a URL that is not empty and
    has no space at either end, and a title with no space at either end;
    its post id is made of decimal digits, and it is the digits of the
    ending [-<digits>.html] of the URL when the URL has that ending and
    the empty string when it has not (a stripped URL cannot end in a
    newline). *)
Theorem listing_summaries_wellformed (doc : listing_page) (s : summary) :
  In s (listing_summaries doc) ->
  s_article_url s <> [] /\
  strip (s_article_url s) = s_article_url s /\
  strip (s_title s) = s_title s /\
  forallb is_decimal (s_postid s) = true /\
  (trailing_id (s_article_url s) (s_postid s) \/
   (s_postid s = [] /\ forall ds, ~ trailing_id (s_article_url s) ds)).
Proof.
  intros Hin. apply in_listing_summaries in Hin.
  destruct Hin as (c & _ & Hc).
  destruct (card_summary_fields _ _ Hc)
    as (a & _ & Hurl & Hne & Htitle & _ & _ & Hid).
  split; [exact Hne|].
  split; [rewrite Hurl; apply strip_strip|].
  split; [rewrite Htitle; apply strip_strip|].
  assert (Hlast : last_char (s_article_url s) <> newline).
  { rewrite Hurl in *.
    destruct (strip_ends (attr_or_empty (a_href a))) as [E | [_ H]];
      [congruence|].
    intros E. rewrite E in H. discriminate. }
  rewrite Hid.
  destruct (extract_post_id_cases (s_article_url s)) as [H | [E Hno]].
  - split; [apply H|]. left. now apply trailing_id_no_newline.
  - rewrite E. split; [reflexivity|]. right. split; [reflexivity|].
    intros ds H. apply (Hno ds). now apply trailing_id_nl_of.
Qed.

(** X6 on the card [card_a]. *)
Lemma listing_summaries_wellformed_witness :
  In summary_a (listing_summaries [card_a; card_bare]) /\
  s_article_url summary_a <> [] /\
  strip (s_article_url summary_a) = s_article_url summary_a /\
  strip (s_title summary_a) = s_title summary_a /\
  forallb is_decimal (s_postid summary_a) = true /\
  (trailing_id (s_article_url summary_a) (s_postid summary_a) \/
   (s_postid summary_a = [] /\
    forall ds, ~ trailing_id (s_article_url summary_a) ds)).
Proof.
  assert (H : In summary_a (listing_summaries [card_a; card_bare]))
    by (left; reflexivity).
  split; [exact H|].
  exact (listing_summaries_wellformed [card_a; card_bare] summary_a H).
Defined.

(* ================================================================== *)
(** * Month names and dates, continued *)
(* ================================================================== *)

Lemma replace_nonempty old new s :
  new <> [] -> s <> [] -> replace old new s <> [].
Proof.
  intros Hnew Hs. unfold replace. destruct old as [|a old].
  - destruct new; [congruence | discriminate].
  - destruct s as [|c s]; [congruence|]. cbn [replace_from].
    destruct (starts_with (a :: old) (c :: s)); [|discriminate].
    destruct new; [congruence | discriminate].
Qed.

Lemma replace_months_nonempty table s :
  (forall kv, In kv table -> snd kv <> []) ->
  s <> [] -> replace_months table s <> [].
Proof.
  unfold replace_months. revert s.
  induction table as [|kv table IH]; intros s H Hs; [exact Hs|].
  simpl. apply IH.
  - intros kv' Hin. apply H. now right.
  - apply replace_nonempty; [apply H; now left | exact Hs].
Qed.

Lemma months_values_nonempty kv :
  In kv MOROCCAN_MONTHS_MAP -> snd kv <> [].
Proof.
  intros Hin E.
  assert (H : forallb (fun kv => truthy (snd kv)) MOROCCAN_MONTHS_MAP = true)
    by reflexivity.
  eapply forallb_forall in H; [|exact Hin]. rewrite E in H. discriminate.
Qed.

Lemma replace_months_in_date pre m post :
  outside_months pre = true -> outside_months post = true ->
  replace_months MOROCCAN_MONTHS_MAP (pre ++ m ++ post)
  = pre ++ replace_months MOROCCAN_MONTHS_MAP m ++ post.
Proof.
  intros Hpre Hpost. apply replace_months_between.
  intros kv Hin. split; [now apply months_keys_nonempty|].
  split; now apply outside_months_foreign.
Qed.

(** X7: [parse_arabic_date] answers [None] for [None] and for the empty
    string whatever the parser would say; for any other text it is the
    parser's answer on the normalized text, which is never empty; so for a
    date written with a Moroccan month name it is the parser's answer on
    the date written with the standard name, and for a text that holds no
    key of the table it is the parser's answer on the text itself. *)
Theorem parse_arabic_date_spec (w : world) :
  parse_arabic_date w None = None /\
  parse_arabic_date w (Some []) = None /\
  (forall text,
      text <> [] ->
      replace_months MOROCCAN_MONTHS_MAP text <> [] /\
      parse_arabic_date w (Some text)
      = dateparser_parse w (replace_months MOROCCAN_MONTHS_MAP text)) /\
  (forall variant canonical pre post,
      In (variant, canonical) MOROCCAN_MONTHS_MAP ->
      outside_months pre = true ->
      outside_months post = true ->
      parse_arabic_date w (Some (pre ++ variant ++ post))
      = dateparser_parse w (pre ++ canonical ++ post)) /\
  (forall text,
      text <> [] ->
      (forall variant canonical,
          In (variant, canonical) MOROCCAN_MONTHS_MAP ->
          contains variant text = false) ->
      parse_arabic_date w (Some text) = dateparser_parse w text).
Proof.
  assert (Hparse : forall text, text <> [] ->
            parse_arabic_date w (Some text)
            = dateparser_parse w (replace_months MOROCCAN_MONTHS_MAP text)).
  { intros text Hne. unfold parse_arabic_date.
    rewrite normalize_some. destruct text; [congruence | reflexivity]. }
  split; [reflexivity|]. split; [reflexivity|].
  split.
  { intros text Hne. split; [|now apply Hparse].
    apply replace_months_nonempty; [|exact Hne].
    intros kv Hin. now apply months_values_nonempty. }
  split.
  { intros variant canonical pre post Hin Hpre Hpost.
    rewrite Hparse.
    - rewrite (replace_months_in_date _ _ _ Hpre Hpost).
      now rewrite (months_key_to_value _ _ Hin).
    - intros E. apply app_eq_nil in E. destruct E as [_ E].
      apply app_eq_nil in E. destruct E as [E _].
      exact (months_keys_nonempty _ Hin E). }
  intros text Hne Habsent. rewrite (Hparse _ Hne). f_equal.
  apply replace_months_absent. intros [k v] Hin. exact (Habsent k v Hin).
Qed.

(** The standard names the table maps to are left as they are, but for
    May's, which holds the May key. *)
Lemma months_values_fixed variant canonical :
  In (variant, canonical) MOROCCAN_MONTHS_MAP ->
  replace_months MOROCCAN_MONTHS_MAP canonical
  = if pystr_eqb canonical may_canonical then may_twice else canonical.
Proof.
  intros Hin.
  assert (H : forallb (fun kv =>
                pystr_eqb (replace_months MOROCCAN_MONTHS_MAP (snd kv))
                          (if pystr_eqb (snd kv) may_canonical
                           then may_twice else snd kv))
              MOROCCAN_MONTHS_MAP = true) by (vm_compute; reflexivity).
  eapply forallb_forall in H; [|exact Hin]. now apply pystr_eqb_eq in H.
Qed.

(** X8: a date that is already written with a standard month name of the
    table (between texts that use no letter of a key) is returned as it is
    by the normalization, except for May: "مايو" comes back as "مايوو". *)
Theorem normalize_standard_names
  (variant canonical pre post : pystr) :
  In (variant, canonical) MOROCCAN_MONTHS_MAP ->
  outside_months pre = true ->
  outside_months post = true ->
  normalize_moroccan_months (Some (pre ++ canonical ++ post))
  = Some (pre
          ++ (if pystr_eqb canonical may_canonical
              then may_twice else canonical)
          ++ post).
Proof.
  intros Hin Hpre Hpost. rewrite normalize_some. f_equal.
  rewrite (replace_months_in_date _ _ _ Hpre Hpost).
  now rewrite (months_values_fixed _ _ Hin).
Qed.

(** X8 on "15 يوليو 2024", which stays, and on "12 مايو 2024", which does
    not. *)
Lemma normalize_standard_names_witness :
  normalize_moroccan_months (Some (u "15 " ++ july_canonical ++ u " 2024"))
  = Some (u "15 " ++ july_canonical ++ u " 2024") /\
  normalize_moroccan_months (Some (u "12 " ++ may_canonical ++ u " 2024"))
  = Some (u "12 " ++ may_twice ++ u " 2024").
Proof.
  split.
  - apply (normalize_standard_names july_variant july_canonical
             (u "15 ") (u " 2024")).
    + simpl; tauto.
    + reflexivity.
    + reflexivity.
  - apply (normalize_standard_names may_variant may_canonical
             (u "12 ") (u " 2024")).
    + simpl; tauto.
    + reflexivity.
    + reflexivity.
Defined.

(* ================================================================== *)
(** * The pipeline, continued *)
(* ================================================================== *)

Section MorePipelineFacts.

Variable w : world.

(** A property of traces that holds of the empty trace, of the traces of
    the single steps of a run and of the concatenation of two traces that
    have it, holds of the trace of a run. *)
Lemma scrape_hespress_trace (P : list event -> Prop) :
  P [] ->
  (forall a b, P a -> P b -> P (a ++ b)) ->
  (forall e,
      match e with GetListing _ | GetArticle _ | SqlSelect _ | SqlInsert _
                   => False
              | _ => True end -> P [e]) ->
  (forall p db, P (events_of (parse_listing_page w p db))) ->
  (forall s db, P (events_of (process_summary w s db))) ->
  forall start_page end_page db,
    P (events_of (scrape_hespress w start_page end_page db)).
Proof.
  intros Hnil Happ Hone Hlisting Hsummary.
  assert (Heach : forall l db, P (events_of (for_each l (process_summary w) db))).
  { induction l as [|s l IH]; intros db; [exact Hnil|].
    simpl. rewrite bind_events. apply Happ; [apply Hsummary | apply IH]. }
  assert (Hpage : forall total p db, P (events_of (scrape_page w total p db))).
  { intros total p db. unfold scrape_page.
    rewrite bind_events, log_run. triples.
    apply Happ; [now apply Hone|].
    rewrite bind_events. apply Happ; [apply Hlisting|].
    destruct (value_of (parse_listing_page w p db)) as [|s ss].
    - rewrite bind_events, log_run, ret_run. triples.
      apply Happ; [now apply Hone | exact Hnil].
    - rewrite bind_events. apply Happ; [apply Heach|].
      rewrite bind_events, emit_run, ret_run. triples.
      apply Happ; [now apply Hone | exact Hnil]. }
  assert (Hpages : forall ps total db,
             P (events_of (for_fold ps total (scrape_page w) db))).
  { induction ps as [|p ps IH]; intros total db; [exact Hnil|].
    simpl. rewrite bind_events. apply Happ; [apply Hpage | apply IH]. }
  intros start_page end_page db. unfold scrape_hespress, create_table.
  rewrite bind_events, bind_events, emit_run, log_run. triples.
  apply Happ; [apply Happ; now apply Hone|].
  rewrite bind_events. apply Happ; [apply Hpages|].
  rewrite bind_events, log_run. triples.
  apply Happ; [now apply Hone|].
  rewrite bind_events, emit_run, ret_run. triples.
  apply Happ; [now apply Hone | exact Hnil].
Qed.

Lemma requests_and_sleeps_app a b :
  requests_and_sleeps (a ++ b) = requests_and_sleeps a ++ requests_and_sleeps b.
Proof. apply filter_app. Qed.

Lemma paced_app a b : paced a -> paced b -> paced (a ++ b).
Proof.
  intros Ha Hb. induction Ha; simpl; try (constructor; assumption).
  exact Hb.
Qed.

Lemma parse_listing_page_paced p db :
  requests_and_sleeps (events_of (parse_listing_page w p db)) = [GetListing p].
Proof.
  unfold parse_listing_page. run_py.
  destruct (listing_response w p) as [status soup|]; simpl;
    [destruct (status =? 200)%Z|]; reflexivity.
Qed.

Lemma parse_article_content_paced url db :
  requests_and_sleeps (events_of (parse_article_content w url db))
  = [GetArticle url].
Proof.
  unfold parse_article_content. run_py.
  destruct (article_response w url) as [status soup|]; simpl;
    [destruct (status =? 200)%Z|]; reflexivity.
Qed.

Lemma insert_article_paced r db :
  requests_and_sleeps (events_of (insert_article w r db)) = [].
Proof.
  unfold insert_article. run_py.
  destruct (adapt_raises w r); [reflexivity|].
  destruct (has_postid db (postid r)); [reflexivity|].
  destruct (has_url db (article_url r) || store_refuses w r); reflexivity.
Qed.

Lemma process_summary_paced s db :
  requests_and_sleeps (events_of (process_summary w s db))
  = if gated db s then [] else [GetArticle (s_article_url s); Sleep 5].
Proof.
  rewrite process_summary_run. destruct (gated db s); [reflexivity|].
  triples. rewrite !requests_and_sleeps_app.
  rewrite parse_article_content_paced, insert_article_paced.
  now destruct (truthy (s_postid s)).
Qed.

(** X13: in a run every request for an article page is followed by a pause
    of half a second before anything else is requested. *)
Theorem scrape_hespress_paced (start_page end_page : Z) (db : table) :
  paced (requests_and_sleeps
           (events_of (scrape_hespress w start_page end_page db))).
Proof.
  apply (scrape_hespress_trace (fun evs => paced (requests_and_sleeps evs))).
  - constructor.
  - intros a b Ha Hb. rewrite requests_and_sleeps_app. now apply paced_app.
  - intros e He. destruct e; try contradiction; simpl; repeat constructor.
  - intros p db'. rewrite parse_listing_page_paced. repeat constructor.
  - intros s db'. rewrite process_summary_paced.
    destruct (gated db' s); repeat constructor.
Qed.

Lemma process_summary_pairs s db :
  map article_url (insert_attempts (events_of (process_summary w s db)))
  = article_requests (events_of (process_summary w s db)).
Proof.
  destruct (gated db s) eqn:G.
  - now rewrite process_summary_gated.
  - destruct (process_summary_new w s db G) as (_ & -> & ->). reflexivity.
Qed.

(** X4: in a run the rows handed to [INSERT] are one for each article page
    requested, in the order of the requests and with the URL requested:
    a page that could not be fetched is followed by its [INSERT] like any
    other, and no row reaches the store without a request. *)
Theorem scrape_hespress_inserts_what_it_requests
  (start_page end_page : Z) (db : table) :
  map article_url
      (insert_attempts (events_of (scrape_hespress w start_page end_page db)))
  = article_requests (events_of (scrape_hespress w start_page end_page db)).
Proof.
  apply (scrape_hespress_trace
           (fun evs => map article_url (insert_attempts evs)
                       = article_requests evs)).
  - reflexivity.
  - intros a b Ha Hb.
    now rewrite insert_attempts_app, article_requests_app, map_app, Ha, Hb.
  - intros e He. destruct e; try contradiction; reflexivity.
  - intros p db'.
    destruct (parse_listing_page_run w p db') as (_ & _ & _ & -> & -> & _).
    reflexivity.
  - intros s db'. apply process_summary_pairs.
Qed.

(* ------------------------------------------------------------------ *)
(** ** What a run adds to the table *)

Lemma for_each_summaries_added l db :
  exists extra,
    table_of (for_each l (process_summary w) db) = db ++ extra /\
    List.length extra <= List.length l /\
    forall r, In r extra ->
      In r (insert_attempts (events_of (for_each l (process_summary w) db)))
      /\ exists s, In s l /\
                   r = merge w s (fetched_detail w (s_article_url s)).
Proof.
  revert db. induction l as [|s l IH]; intros db.
  - exists []. simpl. rewrite app_nil_r.
    split; [reflexivity|]. split; [lia | intros r []].
  - cbn [for_each]. rewrite bind_table, bind_events, insert_attempts_app.
    destruct (IH (table_of (process_summary w s db)))
      as (extra2 & E2 & Hlen2 & H2).
    assert (H1 : exists extra1,
               table_of (process_summary w s db) = db ++ extra1 /\
               List.length extra1 <= 1 /\
               forall r, In r extra1 ->
                 In r (insert_attempts (events_of (process_summary w s db)))
                 /\ r = merge w s (fetched_detail w (s_article_url s))).
    { assert (Hnone : forall evs, exists extra1 : table,
                 db = db ++ extra1 /\ List.length extra1 <= 1 /\
                 forall r, In r extra1 ->
                   In r evs /\
                   r = merge w s (fetched_detail w (s_article_url s))).
      { intros evs. exists []. rewrite app_nil_r.
        split; [reflexivity|]. split; [simpl; lia | intros r []]. }
      destruct (gated db s) eqn:G.
      - rewrite process_summary_table, G. apply Hnone.
      - destruct (process_summary_new w s db G) as (Ht & _ & Hi).
        rewrite Ht, Hi.
        destruct (insert_row_cases w db
                    (merge w s (fetched_detail w (s_article_url s))))
          as [[-> _] | [-> _]]; [apply Hnone|].
        eexists. split; [reflexivity|]. split; [simpl; lia|].
        intros r [<- | []]. split; [now left | reflexivity]. }
    destruct H1 as (extra1 & E1 & Hlen1 & H1).
    exists (extra1 ++ extra2). rewrite E2, E1, app_assoc. rewrite E1 in H2.
    split; [reflexivity|]. split; [rewrite length_app; simpl; lia|].
    intros r Hr. apply in_app_or in Hr. destruct Hr as [Hr | Hr].
    + destruct (H1 r Hr) as [Hin ->]. split.
      * apply in_or_app. now left.
      * exists s. split; [now left | reflexivity].
    + destruct (H2 r Hr) as [Hin (s' & Hs' & ->)]. split.
      * apply in_or_app. now right.
      * exists s'. split; [now right | reflexivity].
Qed.

(** X1: a run never removes or changes a row: the table after it is the
    table before it followed by new rows.  There are no more new rows than
    summaries seen; each new row was handed to [INSERT] in this run and has
    the post id, URL, title and category of a summary seen on the walk. *)
Theorem scrape_hespress_only_adds (start_page end_page : Z) (db : table) :
  exists extra,
    table_of (scrape_hespress w start_page end_page db) = db ++ extra /\
    (Z.of_nat (List.length extra)
     <= total_summaries_seen w start_page end_page)%Z /\
    forall r, In r extra ->
      In r (insert_attempts
              (events_of (scrape_hespress w start_page end_page db))) /\
      exists s, In s (summaries_seen w start_page end_page) /\
                postid r = s_postid s /\
                article_url r = s_article_url s /\
                title r = s_title s /\
                category r = s_category s.
Proof.
  destruct (scrape_hespress_run w start_page end_page db)
    as (_ & -> & _ & _ & _ & -> & _).
  destruct (for_each_summaries_added
              (summaries_seen w start_page end_page) db)
    as (extra & E & Hlen & H).
  exists extra. split; [exact E|].
  split; [unfold total_summaries_seen; lia|].
  intros r Hr. destruct (H r Hr) as [Hin (s & Hs & ->)].
  split; [exact Hin|]. exists s. repeat split. exact Hs.
Qed.

Lemma has_url_false db url :
  has_url db url = false -> ~ In url (map article_url db).
Proof.
  intros H Hin. apply in_map_iff in Hin. destruct Hin as (r & <- & Hr).
  assert (E : has_url db (article_url r) = true).
  { apply existsb_exists. exists r. split; [exact Hr | apply pystr_eqb_refl]. }
  congruence.
Qed.

Lemma insert_row_unique_url db r :
  NoDup (map article_url db) -> NoDup (map article_url (insert_row w db r)).
Proof.
  intros H.
  destruct (insert_row_cases w db r) as [[-> _] | (-> & _ & _ & E)];
    [exact H|].
  rewrite map_app. simpl. apply NoDup_app; [exact H | | ].
  - constructor; [intros [] | constructor].
  - intros x Hx [<- | []]. now apply has_url_false in E.
Qed.

Lemma for_each_summaries_unique_url l db :
  NoDup (map article_url db) ->
  NoDup (map article_url (table_of (for_each l (process_summary w) db))).
Proof.
  revert db. induction l as [|s l IH]; intros db H; [exact H|].
  simpl. rewrite bind_table. apply IH.
  rewrite process_summary_table.
  destruct (gated db s); [exact H | now apply insert_row_unique_url].
Qed.

(** X2: the URLs of the table stay distinct through a run: a row is added
    only when its URL is new, although the statement names [postid] as the
    only conflict target. *)
Theorem scrape_hespress_keeps_urls_distinct
  (start_page end_page : Z) (db : table) :
  NoDup (map article_url db) ->
  NoDup (map article_url (table_of (scrape_hespress w start_page end_page db))).
Proof.
  intros H.
  destruct (scrape_hespress_run w start_page end_page db) as (_ & -> & _).
  now apply for_each_summaries_unique_url.
Qed.

(** X3: after a run, every summary seen on the walk is accounted for: a
    row of the table has its post id, or a row has its URL, or the store
    cannot hold the row the run made of it. *)
Theorem scrape_hespress_covers_summaries
  (start_page end_page : Z) (db : table) (s : summary) :
  In s (summaries_seen w start_page end_page) ->
  has_postid (table_of (scrape_hespress w start_page end_page db))
             (s_postid s) = true \/
  has_url (table_of (scrape_hespress w start_page end_page db))
          (s_article_url s) = true \/
  refused w (row_of w s) = true.
Proof.
  intros Hs.
  destruct (scrape_hespress_run w start_page end_page db) as (_ & -> & _).
  now apply for_each_summaries_grow.
Qed.

(* ------------------------------------------------------------------ *)
(** ** Listing pages that give nothing *)

Lemma in_pages start_page end_page p :
  In p (pages start_page end_page) <->
  (Z.min start_page end_page <= p <= Z.max start_page end_page)%Z.
Proof.
  rewrite pages_walk. unfold closed_interval_walk.
  destruct (start_page >? end_page)%Z eqn:E.
  - apply Z.gtb_lt in E. rewrite in_walk_down. lia.
  - rewrite Z.gtb_ltb in E. apply Z.ltb_ge in E. rewrite in_walk_up. lia.
Qed.

Lemma page_failed_summaries p : page_failed w p -> page_summaries w p = [].
Proof.
  unfold page_failed, page_summaries.
  destruct (listing_response w p) as [status soup|]; [|reflexivity].
  intros H. apply Z.eqb_neq in H. now rewrite H.
Qed.

(** X5: when every listing page of the interval fails (the request raises
    or the status is not 200), the run still requests each page of the
    interval once, requests no article page, hands nothing to [INSERT],
    leaves the table as it is and prints 0. *)
Theorem scrape_hespress_pages_failing (start_page end_page : Z) (db : table) :
  (forall p,
      (Z.min start_page end_page <= p <= Z.max start_page end_page)%Z ->
      page_failed w p) ->
  table_of (scrape_hespress w start_page end_page db) = db /\
  listing_requests (events_of (scrape_hespress w start_page end_page db))
  = closed_interval_walk start_page end_page /\
  article_requests (events_of (scrape_hespress w start_page end_page db)) = []
  /\
  insert_attempts (events_of (scrape_hespress w start_page end_page db)) = []
  /\
  printed (events_of (scrape_hespress w start_page end_page db)) = [0%Z].
Proof.
  intros Hfail.
  assert (Hseen : summaries_seen w start_page end_page = []).
  { unfold summaries_seen.
    assert (H : forall ps, (forall p, In p ps -> page_failed w p) ->
                           flat_map (page_summaries w) ps = []).
    { induction ps as [|p ps IH]; intros H; [reflexivity|]. simpl.
      rewrite (page_failed_summaries p) by (apply H; now left).
      apply IH. intros q Hq. apply H. now right. }
    apply H. intros p Hp. apply Hfail. now apply in_pages. }
  destruct (scrape_hespress_run w start_page end_page db)
    as (_ & -> & -> & -> & -> & -> & _).
  rewrite count_summaries_length. fold (summaries_seen w start_page end_page).
  rewrite Hseen, pages_walk. repeat split; reflexivity.
Qed.

(* ------------------------------------------------------------------ *)
(** ** One summary *)

(** X9: for a summary that is not behind the gate, when the article page
    cannot be fetched or shows no date text, the row handed to [INSERT]
    carries the date text of the listing page, and its date is parsed from
    that text. *)
Theorem listing_date_text_fallback (s : summary) (db : table) :
  gated db s = false ->
  (fetched_detail w (s_article_url s) = None \/
   exists d, fetched_detail w (s_article_url s) = Some d /\
             d_date_text_ar d = []) ->
  exists r,
    insert_attempts (events_of (process_summary w s db)) = [r] /\
    date_text_ar r = s_date_text_ar s /\
    date r = parse_arabic_date w (s_date_text_ar s).
Proof.
  intros G H. destruct (process_summary_new w s db G) as (_ & _ & Hi).
  eexists. split; [exact Hi|].
  destruct H as [-> | (d & -> & Hd)]; unfold merge, py_or; simpl.
  - split; reflexivity.
  - rewrite Hd. split; reflexivity.
Qed.

(** X10: once a summary with a post id has been processed on a table that
    did not hold its URL, and the store can hold the row made of it, the
    existence check finds its post id, and the same summary met again (a
    card listed twice, a later page, a later run) is skipped without a
    request. *)
Theorem processed_summary_is_gated (s : summary) (db : table) :
  s_postid s <> [] ->
  has_url db (s_article_url s) = false ->
  refused w (row_of w s) = false ->
  value_of (article_exists (s_postid s)
              (table_of (process_summary w s db))) = true /\
  process_summary w s (table_of (process_summary w s db))
  = (tt, table_of (process_summary w s db),
     [SqlSelect (s_postid s);
      Logged (InfoAlreadyInDb (s_postid s) (s_article_url s))]).
Proof.
  intros Hne Hurl Hok.
  assert (Ht : truthy (s_postid s) = true) by (now destruct (s_postid s)).
  assert (G : gated (table_of (process_summary w s db)) s = true).
  { unfold gated. rewrite Ht. simpl.
    rewrite process_summary_table. unfold gated. rewrite Ht. simpl.
    destruct (has_postid db (s_postid s)) eqn:E; [exact E|].
    unfold row_of in Hok. rewrite (insert_row_added w db _ Hok E Hurl).
    rewrite has_postid_app. simpl.
    now rewrite pystr_eqb_refl, orb_true_r. }
  split.
  - rewrite article_exists_run. triples. exact G.
  - now apply process_summary_gated.
Qed.

(* ------------------------------------------------------------------ *)
(** ** The two directions of a walk *)

Lemma walk_snoc from step n :
  walk from step (S n) = walk from step n ++ [(from + Z.of_nat n * step)%Z].
Proof.
  revert from. induction n as [|n IH]; intros from.
  - simpl. f_equal. lia.
  - change (walk from step (S (S n)))
      with (from :: walk (from + step)%Z step (S n)).
    rewrite IH.
    replace (from + Z.of_nat (S n) * step)%Z
      with (from + step + Z.of_nat n * step)%Z by lia.
    reflexivity.
Qed.

Lemma rev_walk_up from n :
  rev (walk from 1 n) = walk (from + Z.of_nat n - 1)%Z (-1) n.
Proof.
  revert from. induction n as [|n IH]; intros from; [reflexivity|].
  rewrite (walk_snoc _ (-1)).
  change (walk from 1 (S n)) with (from :: walk (from + 1)%Z 1 n).
  cbn [rev]. rewrite IH.
  replace (from + 1 + Z.of_nat n - 1)%Z with (from + Z.of_nat (S n) - 1)%Z
    by lia.
  replace (from + Z.of_nat (S n) - 1 + Z.of_nat n * -1)%Z with from by lia.
  reflexivity.
Qed.

Lemma pages_reversed start_page end_page :
  pages start_page end_page = rev (pages end_page start_page).
Proof.
  rewrite !pages_walk. unfold closed_interval_walk.
  destruct (start_page >? end_page)%Z eqn:E1;
    destruct (end_page >? start_page)%Z eqn:E2.
  - apply Z.gtb_lt in E1. apply Z.gtb_lt in E2. lia.
  - apply Z.gtb_lt in E1. rewrite rev_walk_up. f_equal. lia.
  - apply Z.gtb_lt in E2.
    rewrite <- (rev_involutive (walk start_page 1 _)), rev_walk_up.
    do 2 f_equal. lia.
  - rewrite Z.gtb_ltb in E1, E2. apply Z.ltb_ge in E1, E2.
    assert (start_page = end_page) by lia. subst.
    now replace (end_page - end_page + 1)%Z with 1%Z by lia.
Qed.

(** X11: a run from [a] to [b] requests the listing pages that a run from
    [b] to [a] requests, in the opposite order (whatever the tables). *)
Theorem scrape_hespress_reverse_walk (a b : Z) (db db' : table) :
  listing_requests (events_of (scrape_hespress w a b db))
  = rev (listing_requests (events_of (scrape_hespress w b a db'))).
Proof.
  destruct (scrape_hespress_run w a b db) as (_ & _ & -> & _).
  destruct (scrape_hespress_run w b a db') as (_ & _ & -> & _).
  apply pages_reversed.
Qed.

End MorePipelineFacts.

(* ------------------------------------------------------------------ *)
(** ** On the example sites *)

(** X2 on a run over page 1 of the example site from the empty table. *)
Lemma scrape_hespress_keeps_urls_distinct_witness :
  NoDup (map article_url (@nil article_row)) /\
  NoDup (map article_url (table_of (scrape_hespress site_a_missing 1 1 []))).
Proof.
  split; [constructor|].
  apply (scrape_hespress_keeps_urls_distinct site_a_missing 1 1 []).
  constructor.
Defined.

(** X3 on the article [a] of the example site, whose page answers 404. *)
Lemma scrape_hespress_covers_summaries_witness :
  In summary_a (summaries_seen site_a_missing 1 1) /\
  (has_postid (table_of (scrape_hespress site_a_missing 1 1 []))
              (s_postid summary_a) = true \/
   has_url (table_of (scrape_hespress site_a_missing 1 1 []))
           (s_article_url summary_a) = true \/
   refused site_a_missing (row_of site_a_missing summary_a) = true).
Proof.
  assert (H : In summary_a (summaries_seen site_a_missing 1 1))
    by (left; reflexivity).
  split; [exact H|].
  exact (scrape_hespress_covers_summaries site_a_missing 1 1 [] summary_a H).
Defined.

(** A row that the store cannot hold, or that cannot be sent to it: the
    error is logged and the run goes on; the row is not in the table, so
    the next run does not find its post id, requests the article page
    again and fails on the same row again, leaving the table as it was. *)
Lemma refused_row_is_tried_again :
  table_of (scrape_hespress site_b_refused 1 1 []) = [row_a_empty; row_c] /\
  insert_errors (events_of (scrape_hespress site_b_refused 1 1 []))
  = [u "2"] /\
  article_requests
    (events_of (scrape_hespress site_b_refused 1 1 [row_a_empty; row_c]))
  = [url_b; url_c] /\
  insert_errors
    (events_of (scrape_hespress site_b_refused 1 1 [row_a_empty; row_c]))
  = [u "2"] /\
  table_of (scrape_hespress site_b_refused 1 1 [row_a_empty; row_c])
  = [row_a_empty; row_c] /\
  table_of (scrape_hespress site_b_unsendable 1 1 []) = [row_a_empty; row_c] /\
  insert_errors (events_of (scrape_hespress site_b_unsendable 1 1 []))
  = [u "2"].
Proof. repeat split; vm_compute; reflexivity. Qed.

(** X5 on the site that is down, walked from page 3 to page 1. *)
Lemma scrape_hespress_pages_failing_witness :
  (forall p, (Z.min 3 1 <= p <= Z.max 3 1)%Z -> page_failed site_down p) /\
  table_of (scrape_hespress site_down 3 1 [row_b]) = [row_b] /\
  listing_requests (events_of (scrape_hespress site_down 3 1 [row_b]))
  = closed_interval_walk 3 1 /\
  article_requests (events_of (scrape_hespress site_down 3 1 [row_b])) = [] /\
  insert_attempts (events_of (scrape_hespress site_down 3 1 [row_b])) = [] /\
  printed (events_of (scrape_hespress site_down 3 1 [row_b])) = [0%Z].
Proof.
  assert (H : forall p, (Z.min 3 1 <= p <= Z.max 3 1)%Z ->
                        page_failed site_down p)
    by (intros p _; exact I).
  split; [exact H|].
  exact (scrape_hespress_pages_failing site_down 3 1 [row_b] H).
Defined.

(** X9 on the article [a] of the example site, whose page answers 404. *)
Lemma listing_date_text_fallback_witness :
  gated [] summary_a = false /\
  fetched_detail site_a_missing (s_article_url summary_a) = None /\
  exists r,
    insert_attempts (events_of (process_summary site_a_missing summary_a []))
    = [r] /\
    date_text_ar r = s_date_text_ar summary_a /\
    date r = parse_arabic_date site_a_missing (s_date_text_ar summary_a).
Proof.
  split; [reflexivity|]. split; [reflexivity|].
  apply (listing_date_text_fallback site_a_missing summary_a []).
  - reflexivity.
  - left. reflexivity.
Defined.

(** X10 on the article [b] of the example site. *)
Lemma processed_summary_is_gated_witness :
  s_postid summary_b <> [] /\
  has_url [] (s_article_url summary_b) = false /\
  refused site_a_back (row_of site_a_back summary_b) = false /\
  value_of (article_exists (s_postid summary_b)
              (table_of (process_summary site_a_back summary_b []))) = true /\
  process_summary site_a_back summary_b
    (table_of (process_summary site_a_back summary_b []))
  = (tt, table_of (process_summary site_a_back summary_b []),
     [SqlSelect (s_postid summary_b);
      Logged (InfoAlreadyInDb (s_postid summary_b)
                              (s_article_url summary_b))]).
Proof.
  split; [discriminate|]. split; [reflexivity|]. split; [reflexivity|].
  apply (processed_summary_is_gated site_a_back summary_b []).
  - discriminate.
  - reflexivity.
  - reflexivity.
Defined.

(* ================================================================== *)
(** * The earlier revision *)
(* ================================================================== *)

Module EarlierFacts.

Import Earlier.
Local Open Scope earlier_scope.

(* ------------------------------------------------------------------ *)
(** ** The post id of an article page *)

Lemma after_literal_spec lit s rest :
  after_literal lit s = Some rest <-> s = lit ++ rest.
Proof.
  revert s. induction lit as [|a lit IH]; intros s; simpl.
  - split; congruence.
  - destruct s as [|b s]; [split; discriminate|].
    destruct (a =? b)%N eqn:E.
    + apply N.eqb_eq in E. subst b. rewrite IH. split; congruence.
    + apply N.eqb_neq in E. split; [discriminate | congruence].
Qed.

(** The longest run of digits at the head of a string. *)
Lemma leading_digits_spec s :
  forallb is_decimal (leading_digits s) = true /\
  exists rest,
    s = leading_digits s ++ rest /\
    match rest with [] => True | c :: _ => is_decimal c = false end.
Proof.
  induction s as [|c s (IHd & rest & IHs & IHr)]; simpl.
  - split; [reflexivity|]. now exists [].
  - destruct (is_decimal c) eqn:E; simpl.
    + rewrite E, IHd. split; [reflexivity|].
      exists rest. split; [now rewrite <- IHs | exact IHr].
    + split; [reflexivity|]. exists (c :: s). split; [reflexivity | exact E].
Qed.

(** The tag that [find] returns always gives a post id: the test
    [if match] that follows cannot fail. *)
Lemma id_is_post_match value :
  id_is_post value = true ->
  exists ds, match_post value = Some ds /\ ds <> [].
Proof.
  unfold id_is_post, match_post.
  destruct (after_literal post_prefix value) as [[|c rest]|];
    try discriminate.
  intros H. simpl. rewrite H. eexists. split; [reflexivity | discriminate].
Qed.

Lemma match_post_is_post value ds :
  match_post value = Some ds -> id_is_post value = true.
Proof.
  unfold id_is_post, match_post.
  destruct (after_literal post_prefix value) as [[|c rest]|];
    try discriminate.
  simpl. destruct (is_decimal c); [reflexivity | discriminate].
Qed.

Lemma find_article_spec ids :
  match find_article ids with
  | Some value =>
      id_is_post value = true /\
      exists before after,
        ids = before ++ Some value :: after /\
        forall v, In (Some v) before -> id_is_post v = false
  | None => forall v, In (Some v) ids -> id_is_post v = false
  end.
Proof.
  induction ids as [|[value|] ids IH]; simpl.
  - intros v [].
  - destruct (id_is_post value) eqn:E.
    + split; [exact E|]. exists [], ids. split; [reflexivity | intros v []].
    + destruct (find_article ids) as [found|].
      * destruct IH as (Hf & before & after & -> & Hb).
        split; [exact Hf|]. exists (Some value :: before), after.
        split; [reflexivity|].
        intros v [Hv | Hv]; [congruence | now apply Hb].
      * intros v [Hv | Hv]; [congruence | now apply IH].
  - destruct (find_article ids) as [found|].
    + destruct IH as (Hf & before & after & -> & Hb).
      split; [exact Hf|]. exists (None :: before), after.
      split; [reflexivity|].
      intros v [Hv | Hv]; [discriminate | now apply Hb].
    + intros v [Hv | Hv]; [discriminate | now apply IH].
Qed.

(** X14: the post id the earlier revision reads from an article page is
    the longest run of decimal digits after [post-] in the [id] of the
    first [<article>] whose [id] starts with [post-] and a digit: it is
    never empty.  It is [None] exactly when no [<article>] has such an
    [id], so whenever [find] returns a tag the match that follows
    succeeds. *)
Theorem page_postid_spec (soup : article_page) :
  (forall ds,
      page_postid soup = Some ds ->
      ds <> [] /\ forallb is_decimal ds = true /\
      exists before rest after,
        page_article_ids soup
        = before ++ Some (post_prefix ++ ds ++ rest) :: after /\
        (forall v, In (Some v) before -> id_is_post v = false) /\
        match rest with [] => True | c :: _ => is_decimal c = false end) /\
  (page_postid soup = None <->
   forall v, In (Some v) (page_article_ids soup) -> id_is_post v = false).
Proof.
  unfold page_postid.
  assert (H := find_article_spec (page_article_ids soup)).
  destruct (find_article (page_article_ids soup)) as [value|].
  - destruct H as (Hpost & before & after & Hids & Hbefore).
    destruct (id_is_post_match _ Hpost) as (ds0 & Hm & Hne).
    split.
    + intros ds Hds. rewrite Hm in Hds. injection Hds as <-.
      split; [exact Hne|].
      unfold match_post in Hm.
      destruct (after_literal post_prefix value) as [tail|] eqn:Ea;
        [|discriminate].
      apply after_literal_spec in Ea.
      destruct (leading_digits_spec tail) as (Hd & rest & Htail & Hrest).
      assert (E : leading_digits tail = ds0)
        by (destruct (leading_digits tail); congruence).
      rewrite E in *. split; [exact Hd|].
      exists before, rest, after. rewrite Hids, Ea, Htail.
      repeat split; assumption.
    + rewrite Hm. split; [discriminate|].
      intros Hall. rewrite Hids in Hall.
      rewrite (Hall value) in Hpost; [discriminate|].
      apply in_or_app. right. now left.
  - split; [discriminate|]. split; [intros _; exact H | reflexivity].
Qed.

(* ------------------------------------------------------------------ *)
(** ** Running computations *)

Lemma earlier_bind_run {A B} (m : M A) (f : A -> M B) db :
  bind m f db
  = (value_of (f (value_of (m db)) (table_of (m db))),
     table_of (f (value_of (m db)) (table_of (m db))),
     events_of (m db) ++ events_of (f (value_of (m db)) (table_of (m db)))).
Proof.
  unfold bind, value_of, table_of, events_of.
  destruct (m db) as [[a db1] t1]. simpl.
  destruct (f a db1) as [[b db2] t2]. reflexivity.
Qed.

Lemma earlier_value_of {A} (a : A) db evs : value_of (a, db, evs) = a.
Proof. reflexivity. Qed.

Lemma earlier_table_of {A} (a : A) db evs : table_of (a, db, evs) = db.
Proof. reflexivity. Qed.

Lemma earlier_events_of {A} (a : A) db evs : events_of (a, db, evs) = evs.
Proof. reflexivity. Qed.

Ltac projections :=
  rewrite ?earlier_value_of, ?earlier_table_of, ?earlier_events_of.

Lemma earlier_emit_run e db : emit e db = (tt, db, [e]).
Proof. reflexivity. Qed.

Lemma earlier_log_run l db : log l db = (tt, db, [Logged l]).
Proof. reflexivity. Qed.

Lemma earlier_ret_run {A} (a : A) db : ret a db = (a, db, []).
Proof. reflexivity. Qed.

Lemma earlier_article_requests_app a b :
  article_requests (a ++ b) = article_requests a ++ article_requests b.
Proof. apply flat_map_app. Qed.

Lemma earlier_insert_attempts_app a b :
  insert_attempts (a ++ b) = insert_attempts a ++ insert_attempts b.
Proof. apply flat_map_app. Qed.

Lemma earlier_for_each_app {A} (l1 l2 : list A) body db :
  table_of (for_each (l1 ++ l2) body db)
  = table_of (for_each l2 body (table_of (for_each l1 body db))) /\
  events_of (for_each (l1 ++ l2) body db)
  = events_of (for_each l1 body db)
    ++ events_of (for_each l2 body (table_of (for_each l1 body db))).
Proof.
  revert db. induction l1 as [|x l1 IH]; intros db; [split; reflexivity|].
  simpl. rewrite !earlier_bind_run. projections.
  destruct (IH (table_of (body x db))) as [-> ->].
  now rewrite app_assoc.
Qed.

Lemma earlier_insert_article_run w r db :
  exists l,
    insert_article w r db = (tt, insert_row w db r, [SqlInsert r; Logged l]).
Proof.
  unfold insert_article, insert_row, bind, emit, log, get_table, put_table,
    ret. simpl.
  destruct (adapt_raises w r); [eexists; reflexivity|].
  destruct (has_url db (article_url r)); [eexists; reflexivity|].
  destruct (store_refuses w r); eexists; reflexivity.
Qed.

Lemma earlier_insert_row_cases w db r :
  (insert_row w db r = db /\
   (refused w r = true \/ has_url db (article_url r) = true)) \/
  (insert_row w db r = db ++ [r] /\
   refused w r = false /\ has_url db (article_url r) = false).
Proof.
  unfold insert_row, refused.
  destruct (adapt_raises w r); [left; split; [reflexivity | now left]|].
  destruct (has_url db (article_url r));
    [left; split; [reflexivity | now right]|].
  destruct (store_refuses w r);
    [left; split; [reflexivity | now left] | right; repeat split].
Qed.

Lemma earlier_insert_row_same w db r :
  refused w r = true \/ has_url db (article_url r) = true ->
  insert_row w db r = db.
Proof.
  unfold insert_row, refused. intros H.
  destruct (adapt_raises w r); [reflexivity|].
  destruct (has_url db (article_url r)); [reflexivity|].
  destruct (store_refuses w r); [reflexivity|].
  simpl in H. destruct H as [H | H]; discriminate.
Qed.

Section EarlierPipelineFacts.

Variable w : world.

Lemma earlier_parse_listing_page_run p db :
  value_of (parse_listing_page w p db) = page_summaries w p /\
  table_of (parse_listing_page w p db) = db /\
  article_requests (events_of (parse_listing_page w p db)) = [] /\
  insert_attempts (events_of (parse_listing_page w p db)) = [].
Proof.
  unfold parse_listing_page, page_summaries, bind, emit, log, ret,
    value_of, table_of, events_of. simpl.
  destruct (listing_response w p) as [status soup|]; simpl.
  - destruct (status =? 200)%Z; simpl; repeat split; reflexivity.
  - repeat split; reflexivity.
Qed.

Lemma earlier_parse_article_content_run url db :
  value_of (parse_article_content w url db) = fetched_detail w url /\
  table_of (parse_article_content w url db) = db /\
  article_requests (events_of (parse_article_content w url db)) = [url] /\
  insert_attempts (events_of (parse_article_content w url db)) = [].
Proof.
  unfold parse_article_content, fetched_detail, bind, emit, log, ret,
    value_of, table_of, events_of. simpl.
  destruct (article_response w url) as [status soup|]; simpl.
  - destruct (status =? 200)%Z; simpl; repeat split; reflexivity.
  - repeat split; reflexivity.
Qed.

(** One iteration of the summary loop: the article page is requested and
    the merged row is handed to [INSERT], whatever the table holds. *)
Lemma earlier_process_summary_run s db :
  table_of (process_summary w s db)
  = insert_row w db (merge w s (fetched_detail w (s_article_url s))) /\
  article_requests (events_of (process_summary w s db)) = [s_article_url s]
  /\
  insert_attempts (events_of (process_summary w s db))
  = [merge w s (fetched_detail w (s_article_url s))].
Proof.
  unfold process_summary.
  destruct (earlier_parse_article_content_run (s_article_url s) db)
    as (Hv & Ht & Ha & Hi).
  destruct (earlier_insert_article_run w
              (merge w s (fetched_detail w (s_article_url s))) db)
    as (l & Hins).
  rewrite earlier_bind_run, Hv, Ht, earlier_bind_run, Hins, earlier_emit_run.
  projections.
  rewrite !earlier_article_requests_app, !earlier_insert_attempts_app, Ha, Hi.
  repeat split; reflexivity.
Qed.

Lemma earlier_for_each_run l db :
  article_requests (events_of (for_each l (process_summary w) db))
  = map s_article_url l /\
  insert_attempts (events_of (for_each l (process_summary w) db))
  = map (fun s => merge w s (fetched_detail w (s_article_url s))) l.
Proof.
  revert db. induction l as [|s l IH]; intros db; [split; reflexivity|].
  simpl. rewrite earlier_bind_run. projections.
  rewrite earlier_article_requests_app, earlier_insert_attempts_app.
  destruct (earlier_process_summary_run s db) as (_ & -> & ->).
  destruct (IH (table_of (process_summary w s db))) as [-> ->].
  split; reflexivity.
Qed.

Lemma earlier_scrape_page_run total p db :
  table_of (scrape_page w total p db)
  = table_of (for_each (page_summaries w p) (process_summary w) db) /\
  article_requests (events_of (scrape_page w total p db))
  = map s_article_url (page_summaries w p) /\
  insert_attempts (events_of (scrape_page w total p db))
  = map (fun s => merge w s (fetched_detail w (s_article_url s)))
        (page_summaries w p).
Proof.
  unfold scrape_page.
  destruct (earlier_parse_listing_page_run p db) as (Hv & Ht & Ha & Hi).
  rewrite earlier_bind_run, earlier_log_run. projections.
  rewrite earlier_bind_run, Hv, Ht. projections.
  rewrite !earlier_article_requests_app, !earlier_insert_attempts_app, Ha, Hi.
  destruct (page_summaries w p) as [|s ss] eqn:E.
  - rewrite earlier_bind_run, earlier_log_run, earlier_ret_run. projections.
    repeat split; reflexivity.
  - rewrite earlier_bind_run, earlier_bind_run, earlier_emit_run,
      earlier_ret_run.
    projections.
    rewrite !earlier_article_requests_app, !earlier_insert_attempts_app.
    destruct (earlier_for_each_run (s :: ss) db) as [-> ->].
    simpl. rewrite !app_nil_r. repeat split; reflexivity.
Qed.

Lemma earlier_scrape_pages_run ps total db :
  table_of (for_fold ps total (scrape_page w) db)
  = table_of (for_each (flat_map (page_summaries w) ps)
                       (process_summary w) db) /\
  article_requests (events_of (for_fold ps total (scrape_page w) db))
  = map s_article_url (flat_map (page_summaries w) ps) /\
  insert_attempts (events_of (for_fold ps total (scrape_page w) db))
  = map (fun s => merge w s (fetched_detail w (s_article_url s)))
        (flat_map (page_summaries w) ps).
Proof.
  revert total db. induction ps as [|p ps IH]; intros total db.
  - repeat split; reflexivity.
  - cbn [for_fold flat_map]. rewrite earlier_bind_run. projections.
    destruct (earlier_scrape_page_run total p db) as (Ht & Ha & Hi).
    rewrite Ht, earlier_article_requests_app, earlier_insert_attempts_app,
      Ha, Hi.
    destruct (IH (value_of (scrape_page w total p db))
                 (table_of (for_each (page_summaries w p)
                                     (process_summary w) db)))
      as (IHt & IHa & IHi).
    rewrite IHt, IHa, IHi, !map_app.
    destruct (earlier_for_each_app (page_summaries w p)
                (flat_map (page_summaries w) ps) (process_summary w) db)
      as [-> _].
    repeat split; reflexivity.
Qed.

Lemma earlier_scrape_hespress_run start_page end_page db :
  value_of (scrape_hespress w start_page end_page db) = PyNone /\
  table_of (scrape_hespress w start_page end_page db)
  = table_of (for_each (summaries_seen w start_page end_page)
                       (process_summary w) db) /\
  article_requests (events_of (scrape_hespress w start_page end_page db))
  = map s_article_url (summaries_seen w start_page end_page) /\
  insert_attempts (events_of (scrape_hespress w start_page end_page db))
  = map (fun s => merge w s (fetched_detail w (s_article_url s)))
        (summaries_seen w start_page end_page).
Proof.
  unfold scrape_hespress, summaries_seen.
  destruct (earlier_scrape_pages_run (pages start_page end_page) 0%Z db)
    as (Ht & Ha & Hi).
  assert (Hc : create_table db
               = (tt, db, [SqlCreateTable; Logged InfoTableEnsured]))
    by reflexivity.
  rewrite earlier_bind_run, Hc. projections.
  rewrite earlier_bind_run, Ht. projections.
  rewrite earlier_bind_run, earlier_log_run, earlier_bind_run,
    earlier_emit_run, earlier_ret_run.
  projections.
  rewrite !earlier_article_requests_app, !earlier_insert_attempts_app, Ha, Hi.
  simpl. rewrite !app_nil_r. repeat split; reflexivity.
Qed.

Lemma earlier_has_url_app db extra url :
  has_url (db ++ extra) url = has_url db url || has_url extra url.
Proof. apply existsb_app. Qed.

(** The table holds the URL of the summary, or the store cannot hold the
    row made of it. *)
Lemma earlier_process_summary_stores s db :
  (has_url (table_of (process_summary w s db)) (s_article_url s) = true \/
   refused w (merge w s (fetched_detail w (s_article_url s))) = true) /\
  exists extra, table_of (process_summary w s db) = db ++ extra.
Proof.
  destruct (earlier_process_summary_run s db) as (-> & _).
  destruct (earlier_insert_row_cases w db
              (merge w s (fetched_detail w (s_article_url s))))
    as [[-> H] | [-> _]].
  - split; [tauto|]. exists []. now rewrite app_nil_r.
  - split; [|eexists; reflexivity].
    left. rewrite earlier_has_url_app. simpl.
    now rewrite pystr_eqb_refl, orb_true_r.
Qed.

Lemma earlier_process_summary_known s db :
  has_url db (s_article_url s) = true \/
  refused w (merge w s (fetched_detail w (s_article_url s))) = true ->
  table_of (process_summary w s db) = db.
Proof.
  intros H. destruct (earlier_process_summary_run s db) as (-> & _).
  apply earlier_insert_row_same. cbn [article_url merge]. tauto.
Qed.

Lemma earlier_for_each_stores l db :
  (exists extra,
      table_of (for_each l (process_summary w) db) = db ++ extra) /\
  (forall s, In s l ->
     has_url (table_of (for_each l (process_summary w) db))
             (s_article_url s) = true \/
     refused w (merge w s (fetched_detail w (s_article_url s))) = true).
Proof.
  revert db. induction l as [|s l IH]; intros db.
  - split; [exists []; now rewrite app_nil_r | intros s []].
  - simpl. rewrite earlier_bind_run. projections.
    destruct (earlier_process_summary_stores s db) as (Hs & e1 & E1).
    destruct (IH (table_of (process_summary w s db))) as ((e2 & E2) & Hall).
    split.
    + exists (e1 ++ e2). now rewrite E2, E1, app_assoc.
    + intros s' [<- | Hin]; [|now apply Hall].
      destruct Hs as [Hs | Hs]; [left | now right].
      rewrite E2, earlier_has_url_app, Hs. reflexivity.
Qed.

Lemma earlier_for_each_known l db :
  (forall s, In s l ->
     has_url db (s_article_url s) = true \/
     refused w (merge w s (fetched_detail w (s_article_url s))) = true) ->
  table_of (for_each l (process_summary w) db) = db.
Proof.
  induction l as [|s l IH]; intros H; [reflexivity|].
  simpl. rewrite earlier_bind_run. projections.
  rewrite (earlier_process_summary_known s db) by (apply H; now left).
  apply IH. intros s' Hs'. apply H. now right.
Qed.

(** X15: the earlier revision is idempotent on the table too: after a run
    the URL of every summary seen is in the table, unless the store cannot
    hold the row the run made of it; the rows the table held are kept in
    place; and a second run over the same range on the same site leaves
    the table as the first left it. *)
Theorem earlier_scrape_hespress_idempotent
  (start_page end_page : Z) (db : table) :
  (forall s, In s (summaries_seen w start_page end_page) ->
     has_url (table_of (scrape_hespress w start_page end_page db))
             (s_article_url s) = true \/
     refused w (merge w s (fetched_detail w (s_article_url s))) = true) /\
  (exists extra,
      table_of (scrape_hespress w start_page end_page db) = db ++ extra) /\
  table_of (scrape_hespress w start_page end_page
              (table_of (scrape_hespress w start_page end_page db)))
  = table_of (scrape_hespress w start_page end_page db).
Proof.
  destruct (earlier_scrape_hespress_run start_page end_page db)
    as (_ & Ht & _).
  destruct (earlier_scrape_hespress_run start_page end_page
              (table_of (scrape_hespress w start_page end_page db)))
    as (_ & Ht2 & _).
  destruct (earlier_for_each_stores
              (summaries_seen w start_page end_page) db) as [Hgrow Hall].
  rewrite <- Ht in Hgrow, Hall.
  split; [exact Hall|]. split; [exact Hgrow|].
  rewrite Ht2. now apply earlier_for_each_known.
Qed.

(** X16: the earlier revision has no gate: whatever the table holds, a run
    requests the article page of every summary seen, in order, and hands
    one row to [INSERT] for each; so a second run over the same range
    repeats every request of the first. *)
Theorem earlier_requests_every_article
  (start_page end_page : Z) (db : table) :
  article_requests (events_of (scrape_hespress w start_page end_page db))
  = map s_article_url (summaries_seen w start_page end_page) /\
  map article_url
      (insert_attempts (events_of (scrape_hespress w start_page end_page db)))
  = map s_article_url (summaries_seen w start_page end_page) /\
  article_requests
    (events_of (scrape_hespress w start_page end_page
                  (table_of (scrape_hespress w start_page end_page db))))
  = article_requests (events_of (scrape_hespress w start_page end_page db)).
Proof.
  destruct (earlier_scrape_hespress_run start_page end_page db)
    as (_ & _ & Ha & Hi).
  destruct (earlier_scrape_hespress_run start_page end_page
              (table_of (scrape_hespress w start_page end_page db)))
    as (_ & _ & Ha2 & _).
  rewrite Ha, Hi, Ha2, map_map. repeat split; reflexivity.
Qed.

End EarlierPipelineFacts.

End EarlierFacts.

(* ================================================================== *)
(** * The two revisions *)
(* ================================================================== *)

Lemma listing_fold_agrees doc results :
  fold_left Earlier.listing_step doc (map forget_postid results)
  = map forget_postid (fold_left listing_step doc results).
Proof.
  revert results. induction doc as [|c doc IH]; intros results;
    [reflexivity|].
  simpl. rewrite <- IH. f_equal.
  unfold Earlier.listing_step, listing_step.
  destruct (card_link c) as [a|]; [|reflexivity].
  destruct (truthy (strip (attr_or_empty (a_href a)))); simpl;
    [|reflexivity].
  now rewrite map_app.
Qed.

(** X17: the two revisions read the same summaries off a listing page, in
    the same order; the later one adds to each the post id of its URL. *)
Theorem listing_summaries_agree (doc : listing_page) :
  Earlier.listing_summaries doc = map forget_postid (listing_summaries doc) /\
  forall s, In s (listing_summaries doc) ->
            s_postid s = extract_post_id_from_url (s_article_url s).
Proof.
  split.
  - unfold Earlier.listing_summaries, listing_summaries.
    now rewrite <- listing_fold_agrees.
  - intros s. apply listing_summaries_postid.
Qed.
